(** * ADM1166 EEPROM programmer ([adm1166_eeprom.c]): Intel-HEX parser and
    page-programming orchestrator, embedded shallowly.

    - machine integers are [Z] with the wrap-around of their C type written out;
    - the byte stream read through the hex file's descriptor is a [string],
      consumed one character at a time by [get_token];
    - the singly linked list [ihex_file.first -> ... -> ihex_file.last] is a
      [list ihex_chunk]; [chunk->next] is the head of the remaining list;
    - the process state (descriptor table, [errno], what the environment
      answers to each system call, what reached the I2C adapter) is a
      [world] threaded through the system calls; descriptors are numbers,
      allocated lowest-free-first as POSIX has it, so that a descriptor
      variable that outlives its [close] refers to whatever was opened on
      that number since;
    - [malloc] is taken to succeed; of the messages printed only the closing
      one of [main] is kept, as an event, and of the others only what those
      printed ahead of a [return -errno] do to [errno]. *)

From Stdlib Require Import ZArith String Ascii Lia.
From stdpp Require Import base list.
Import ListNotations.
Open Scope Z_scope.

(** ** Data model *)

(** [struct ihex_chunk] without its [next] pointer, which is the position in
    the list. [data] is the flexible array member: as many bytes as were
    allocated for it. *)
Record ihex_chunk := mk_chunk {
  addr : Z;          (* unsigned short *)
  len : Z;           (* unsigned char *)
  checksum : Z;      (* unsigned char *)
  data : list Z      (* unsigned char data[] *)
}.

(** [struct ihex_file]: [first] is the head of the list, [last] its end. *)
Definition ihex_file := list ihex_chunk.

Inductive state :=
  | STATE_START_OF_LINE
  | STATE_LINE_LENGTH
  | STATE_ADDRESS
  | STATE_TYPE
  | STATE_DATA
  | STATE_CHECKSUM
  | STATE_END_OF_FILE
  | STATE_ERROR
  | STATE_DONE.

Definition state_eqb (a b : state) : bool :=
  match a, b with
  | STATE_START_OF_LINE, STATE_START_OF_LINE
  | STATE_LINE_LENGTH, STATE_LINE_LENGTH
  | STATE_ADDRESS, STATE_ADDRESS
  | STATE_TYPE, STATE_TYPE
  | STATE_DATA, STATE_DATA
  | STATE_CHECKSUM, STATE_CHECKSUM
  | STATE_END_OF_FILE, STATE_END_OF_FILE
  | STATE_ERROR, STATE_ERROR
  | STATE_DONE, STATE_DONE => true
  | _, _ => false
  end.

(** Conversions to the C integer types that are stored into. *)
Definition to_uint (z : Z) : Z := z mod 2 ^ 32.
Definition to_ushort (z : Z) : Z := z mod 2 ^ 16.
Definition to_uchar (z : Z) : Z := z mod 2 ^ 8.

(** ** The parser *)

Module Parser.

(** [get_token]: one [read] of one byte; [-1] at the end of the stream. *)
Definition get_token (fd : string) : Z * string :=
  match fd with
  | EmptyString => (-1, EmptyString)
  | String c rest => (Z.of_N (N_of_ascii c), rest)
  end.

(** The [for] loop of [get_hex_token]: [n] iterations are left, [val] is the
    value accumulated so far. Returns the return code, [*val] and the rest of
    the stream. *)
Fixpoint get_hex_token_loop (n : nat) (val : Z) (fd : string) : Z * Z * string :=
  match n with
  | O => (0, val, fd)
  | S n' =>
      let '(c, fd') := get_token fd in
      if c <? 0 then (c, val, fd')
      else
        let val := to_uint (Z.shiftl val 4) in
        if (48 <=? c) && (c <=? 57) then
          get_hex_token_loop n' (Z.lor val (c - 48)) fd'
        else if (65 <=? c) && (c <=? 70) then
          get_hex_token_loop n' (Z.lor val (c - 65 + 10)) fd'
        else (-1, val, fd')
  end.

Definition get_hex_token (fd : string) (len : nat) : Z * Z * string :=
  get_hex_token_loop len 0 fd.

(** The local variables of [parse_ihex] that live across iterations of its
    [while] loop, the list under construction and the unread input. *)
Record pstate := mk_pstate {
  st : state;
  chunk : option ihex_chunk;     (* NULL is None *)
  file : ihex_file;
  input : string
}.

(** The [for] loop of [STATE_DATA]: bytes [i], [i+1], ... of [chunk->data]
    are still to be read, [n] of them. Returns whether every read succeeded. *)
Fixpoint read_data (n : nat) (i : nat) (d : list Z) (fd : string)
  : bool * list Z * string :=
  match n with
  | O => (true, d, fd)
  | S n' =>
      let '(ret, tmp, fd') := get_hex_token fd 2 in
      if ret <? 0 then (false, d, fd')
      else read_data n' (S i) (<[i := to_uchar tmp]> d) fd'
  end.

(** One iteration of the [while] loop, entered in a state that is neither
    [STATE_ERROR] nor [STATE_DONE]. [None] is a dereference of a NULL
    [chunk]. *)
Definition step (s : pstate) : option pstate :=
  match st s with
  | STATE_START_OF_LINE =>
      let '(c, fd) := get_token (input s) in
      if (c =? 10) || (c =? 13) || (c =? 9) || (c =? 32) then
        Some (mk_pstate STATE_START_OF_LINE (chunk s) (file s) fd)
      else if c =? 58 then
        Some (mk_pstate STATE_LINE_LENGTH (chunk s) (file s) fd)
      else
        Some (mk_pstate STATE_ERROR (chunk s) (file s) fd)
  | STATE_LINE_LENGTH =>
      let '(ret, tmp, fd) := get_hex_token (input s) 2 in
      if ret <? 0 then Some (mk_pstate STATE_ERROR (chunk s) (file s) fd)
      else
        let c := mk_chunk 0 (to_uchar tmp) 0 (replicate (Z.to_nat tmp) 0) in
        Some (mk_pstate STATE_ADDRESS (Some c) (file s) fd)
  | STATE_ADDRESS =>
      let '(ret, tmp, fd) := get_hex_token (input s) 4 in
      if ret <? 0 then Some (mk_pstate STATE_ERROR (chunk s) (file s) fd)
      else
        match chunk s with
        | None => None
        | Some c =>
            let c := mk_chunk (to_ushort tmp) (len c) (checksum c) (data c) in
            Some (mk_pstate STATE_TYPE (Some c) (file s) fd)
        end
  | STATE_TYPE =>
      let '(ret, tmp, fd) := get_hex_token (input s) 2 in
      if ret <? 0 then Some (mk_pstate STATE_ERROR (chunk s) (file s) fd)
      else if tmp =? 0 then Some (mk_pstate STATE_DATA (chunk s) (file s) fd)
      else if tmp =? 1 then Some (mk_pstate STATE_END_OF_FILE (chunk s) (file s) fd)
      else Some (mk_pstate STATE_TYPE (chunk s) (file s) fd)
  | STATE_DATA =>
      match chunk s with
      | None => None
      | Some c =>
          let '(ok, d, fd) := read_data (Z.to_nat (len c)) 0 (data c) (input s) in
          let c := mk_chunk (addr c) (len c) (checksum c) d in
          Some (mk_pstate (if ok then STATE_CHECKSUM else STATE_ERROR)
                          (Some c) (file s) fd)
      end
  | STATE_CHECKSUM =>
      let '(ret, tmp, fd) := get_hex_token (input s) 2 in
      if ret <? 0 then Some (mk_pstate STATE_ERROR (chunk s) (file s) fd)
      else
        match chunk s with
        | None => None
        | Some c =>
            let c := mk_chunk (addr c) (len c) (to_uchar tmp) (data c) in
            Some (mk_pstate STATE_START_OF_LINE None (file s ++ [c]) fd)
        end
  | STATE_END_OF_FILE =>
      let '(ret, tmp, fd) := get_hex_token (input s) 1 in
      if (ret <? 0) || negb (tmp =? 255) then
        Some (mk_pstate STATE_ERROR (chunk s) (file s) fd)
      else
        Some (mk_pstate STATE_DONE (chunk s) (file s) fd)
  | STATE_ERROR | STATE_DONE => Some s
  end.

Definition running (s : pstate) : bool :=
  negb (state_eqb (st s) STATE_ERROR) && negb (state_eqb (st s) STATE_DONE).

(** The [while] loop, cut off after [fuel] iterations. [None]: the loop was
    cut off, or it dereferenced NULL. *)
Fixpoint loop (fuel : nat) (s : pstate) : option pstate :=
  if running s then
    match fuel with
    | O => None
    | S fuel' =>
        match step s with
        | None => None
        | Some s' => loop fuel' s'
        end
    end
  else Some s.

Definition init (fd : string) : pstate :=
  mk_pstate STATE_START_OF_LINE None [] fd.

(** What is left of [parse_ihex] after the loop: the chunk in progress, if
    any, is freed, and the return code is [0] only in [STATE_DONE]. The
    second component is [*file] as the caller finds it. *)
Definition finish (s : pstate) : Z * ihex_file :=
  (if state_eqb (st s) STATE_DONE then 0 else -1, file s).

(** Every iteration that does not end the loop consumes a character, except
    a [STATE_DATA] iteration of a chunk of length 0, which is followed by one
    that does: twice the length of the input, and two more, always suffice. *)
Definition enough_fuel (fd : string) : nat := 2 * String.length fd + 2.

Definition parse_ihex (fd : string) : option (Z * ihex_file) :=
  match loop (enough_fuel fd) (init fd) with
  | None => None
  | Some s => Some (finish s)
  end.

End Parser.

(** ** The process and its environment *)

Module Sys.

(** What a descriptor can refer to: the hex file opened read-only, the I2C
    adapter [/dev/i2c-0], or something the process inherited. *)
Inductive fobj := HexFile | I2CAdapter | Other.

(** What the environment answers to one system call: its return value, the
    value [errno] has afterwards, and the bytes a read delivers. *)
Record answer := mk_answer {
  a_ret : Z;
  a_errno : Z;
  a_data : list Z
}.

(** What can be observed of a run. *)
Inductive event :=
  | EvSlave (a : Z)                              (* ioctl(I2C_SLAVE, a) on the adapter *)
  | EvWrite (bytes : list Z)                     (* write(bytes) on the adapter *)
  | EvRdwr (a : Z) (wr : list Z) (rdlen : nat)   (* ioctl(I2C_RDWR): write wr, read rdlen bytes *)
  | EvSleep (seconds : Z)
  | EvBanner (success : bool).                   (* the closing message of main *)

(** - [fdtab]: descriptor [n] is entry [n]; [None] is a free descriptor;
    - [answers]: what the environment will answer to the system calls to
      come, in order (when exhausted, calls fail with [EIO]);
    - [uninit]: what an uninitialised [rbuf] on the stack holds;
    - [diag]: what the diagnostics that are printed on [stderr] between a
      failed call and a [return -errno] will do to [errno], in order:
      [Some e] sets it to [e], [None] leaves it (as does an exhausted list);
    - [trace]: the events so far, oldest first. *)
Record world := mk_world {
  fdtab : list (option fobj);
  errno : Z;
  answers : list answer;
  uninit : list Z;
  diag : list (option Z);
  trace : list event
}.

Definition EBADF : Z := 9.
Definition EIO : Z := 5.
Definition ENOTTY : Z := 25.

Definition next_answer (w : world) : answer * world :=
  match answers w with
  | [] => (mk_answer (-1) EIO [], w)
  | a :: rest =>
      (a, mk_world (fdtab w) (errno w) rest (uninit w) (diag w) (trace w))
  end.

Definition set_errno (e : Z) (w : world) : world :=
  mk_world (fdtab w) e (answers w) (uninit w) (diag w) (trace w).

Definition log (e : event) (w : world) : world :=
  mk_world (fdtab w) (errno w) (answers w) (uninit w) (diag w)
           (trace w ++ [e]).

Definition fd_lookup (t : list (option fobj)) (fd : Z) : option fobj :=
  if fd <? 0 then None
  else match t !! Z.to_nat fd with
       | Some o => o
       | None => None
       end.

(** POSIX: [open] returns the lowest-numbered descriptor that is not open. *)
Fixpoint lowest_free (t : list (option fobj)) : nat :=
  match t with
  | [] => O
  | None :: _ => O
  | Some _ :: t' => S (lowest_free t')
  end.

Definition fd_install (t : list (option fobj)) (n : nat) (o : fobj)
  : list (option fobj) :=
  if decide (n < length t)%nat then <[n := Some o]> t else t ++ [Some o].

(** [open]: whether it succeeds is up to the environment; the descriptor it
    returns is not. *)
Definition sys_open (w : world) (o : fobj) : world * Z :=
  let '(a, w) := next_answer w in
  if a_ret a <? 0 then (set_errno (a_errno a) w, -1)
  else
    let n := lowest_free (fdtab w) in
    (mk_world (fd_install (fdtab w) n o) (errno w) (answers w) (uninit w)
              (diag w) (trace w),
     Z.of_nat n).

Definition sys_close (w : world) (fd : Z) : world :=
  if fd <? 0 then set_errno EBADF w
  else mk_world (<[Z.to_nat fd := None]> (fdtab w)) (errno w) (answers w)
                (uninit w) (diag w) (trace w).

(** [write(fd, buf, n)], [buf] being the [n] bytes: it goes to whatever [fd]
    refers to at the time of the call. The hex file was opened with flags 0,
    read-only, and a descriptor that is not open is as bad. *)
Definition sys_write (w : world) (fd : Z) (buf : list Z) : world * Z :=
  match fd_lookup (fdtab w) fd with
  | Some I2CAdapter =>
      let '(a, w) := next_answer w in
      (log (EvWrite buf) (set_errno (a_errno a) w), a_ret a)
  | Some Other =>
      let '(a, w) := next_answer w in
      (set_errno (a_errno a) w, a_ret a)
  | Some HexFile | None => (set_errno EBADF w, -1)
  end.

Definition sys_ioctl_slave (w : world) (fd : Z) (a : Z) : world * Z :=
  match fd_lookup (fdtab w) fd with
  | Some I2CAdapter =>
      let '(r, w) := next_answer w in
      (log (EvSlave a) (set_errno (a_errno r) w), a_ret r)
  | Some _ => (set_errno ENOTTY w, -1)
  | None => (set_errno EBADF w, -1)
  end.

(** The bytes [new] written over the start of the buffer [old]. *)
Definition overlay (new old : list Z) : list Z :=
  take (length old) (new ++ drop (length new) old).

(** [ioctl(fd, I2C_RDWR, &xfer)] with the two messages of
    [adm_eeprom_read]: write the first [wrlen] bytes of [buf] to device [a],
    then read [rdlen] bytes from it into [buf]. *)
Definition sys_ioctl_rdwr (w : world) (fd : Z) (a : Z) (wrlen rdlen : nat)
    (buf : list Z) : world * Z * list Z :=
  match fd_lookup (fdtab w) fd with
  | Some I2CAdapter =>
      let '(r, w) := next_answer w in
      (log (EvRdwr a (take wrlen buf) rdlen) (set_errno (a_errno r) w),
       a_ret r,
       overlay (take rdlen (a_data r)) buf)
  | Some _ => (set_errno ENOTTY w, -1, buf)
  | None => (set_errno EBADF w, -1, buf)
  end.

(** [fprintf(stderr, ...)] where [errno] is read right after it, in the six
    [return -errno] of the three EEPROM commands: the message is not kept,
    what the call does to [errno] is ([None]: it leaves it, [Some e]: it sets
    it to [e]; an empty list: every message leaves it). The other messages of
    the program are followed by no read of [errno]: the next system call
    comes first, and after a call [errno] is what its answer says. *)
Definition sys_diag (w : world) : world :=
  match diag w with
  | [] => w
  | None :: rest =>
      mk_world (fdtab w) (errno w) (answers w) (uninit w) rest (trace w)
  | Some e :: rest =>
      mk_world (fdtab w) e (answers w) (uninit w) rest (trace w)
  end.

Definition sys_sleep (w : world) (seconds : Z) : world :=
  log (EvSleep seconds) w.

End Sys.

(** ** The page protocol and the orchestrator *)

Module Prog.
Import Sys.

Definition ADM_PAGE_SIZE : Z := 0x20.

Definition addr_hi (addr : Z) : Z := Z.land (Z.shiftr addr 8) 0xff.
Definition addr_lo (addr : Z) : Z := Z.land addr 0xff.

Definition adm_eeprom_erase (w : world) (fd : Z) (addr : Z) : world * Z :=
  let buf := [addr_hi addr; addr_lo addr] in
  let '(w, ret) := sys_write w fd buf in
  if negb (ret =? 2) then let w := sys_diag w in (w, - errno w)
  else
    let buf := <[0%nat := 0xfe]> buf in
    let '(w, ret) := sys_write w fd (take 1 buf) in
    if negb (ret =? 1) then let w := sys_diag w in (w, - errno w)
    else (w, 0).

(** Returns the return code and [rbuf], which is only written on success. *)
Definition adm_eeprom_read (w : world) (fd : Z) (addr : Z) (rbuf : list Z)
  : world * Z * list Z :=
  let buf := [addr_hi addr; addr_lo addr] ++ replicate 31 0 in
  let '(w, ret) := sys_write w fd (take 2 buf) in
  if negb (ret =? 2) then let w := sys_diag w in (w, - errno w, rbuf)
  else
    let buf := <[0%nat := 0xfd]> buf in
    let '(w, ret, buf) :=
      sys_ioctl_rdwr w fd 0x34 1 (Z.to_nat (ADM_PAGE_SIZE + 1)) buf in
    if negb (ret =? 2) then let w := sys_diag w in (w, - errno w, rbuf)
    else if negb (nth 0 buf 0 =? ADM_PAGE_SIZE) then (w, -1, rbuf)
    else (w, 0, take (Z.to_nat ADM_PAGE_SIZE) (drop 1 buf)).

Definition adm_eeprom_write (w : world) (fd : Z) (addr : Z) (wbuf : list Z)
  : world * Z :=
  let buf := [addr_hi addr; addr_lo addr] ++ replicate 32 0 in
  let '(w, ret) := sys_write w fd (take 2 buf) in
  if negb (ret =? 2) then let w := sys_diag w in (w, - errno w)
  else
    let buf := [0xfc; ADM_PAGE_SIZE] ++ take (Z.to_nat ADM_PAGE_SIZE) wbuf in
    let '(w, ret) := sys_write w fd buf in
    if ret <? 0 then let w := sys_diag w in (w, - errno w)
    else (w, 0).

(** [memcmp(a, b, ADM_PAGE_SIZE) == 0] *)
Definition page_eqb (a b : list Z) : bool :=
  bool_decide (take (Z.to_nat ADM_PAGE_SIZE) a = take (Z.to_nat ADM_PAGE_SIZE) b).

(** [program_chunk(i2c_fd, chunk)]; [next] is [chunk->next]. [None]: the
    behaviour is undefined, [chunk->next] is NULL where it is dereferenced or
    one of the two [memcpy] reads past the end of a [data] array. *)
Definition program_chunk (w : world) (i2c_fd : Z) (chunk : ihex_chunk)
    (next : option ihex_chunk) : option (world * Z) :=
  let rbuf := uninit w in
  let '(w, ret, rbuf) := adm_eeprom_read w i2c_fd (addr chunk) rbuf in
  if negb (ret =? 0) then Some (w, -1)
  else
    match next with
    | None => None
    | Some nxt =>
        if decide (16 <= length (data chunk) ∧ 16 <= length (data nxt))%nat
        then
          let wbuf := take 16 (data chunk) ++ take 16 (data nxt) in
          if page_eqb wbuf rbuf then Some (w, 0)
          else
            let '(w, ret) := adm_eeprom_erase w i2c_fd (addr chunk) in
            if negb (ret =? 0) then Some (w, -1)
            else
              let w := sys_sleep w 1 in
              let '(w, ret) := adm_eeprom_write w i2c_fd (addr chunk) wbuf in
              if negb (ret =? 0) then Some (w, -1)
              else
                let w := sys_sleep w 1 in
                let '(w, ret, rbuf) :=
                  adm_eeprom_read w i2c_fd (addr chunk) rbuf in
                let ret :=
                  if ret =? 0
                  then (if negb (page_eqb rbuf wbuf) then -1 else ret)
                  else ret in
                if ret =? 0 then Some (w, 0) else Some (w, -1)
        else None
    end.

(** The [for] loop of lines 392-402, [a] being the local [addr]. [false] is
    [exit(1)]. *)
Fixpoint validate (l : ihex_file) (a : Z) : bool :=
  match l with
  | [] => true
  | chunk :: rest =>
      if negb (len chunk =? 0x10) || negb (addr chunk =? a) then false
      else if (addr chunk mod 0x20 =? 0)
              && (match rest with [] => true | _ => false end) then false
      else validate rest (to_uint (a + 0x10))
  end.

(** The test that guards [continue] in the page loop. *)
Definition reserved (a : Z) : bool :=
  ((0xF8A0 <=? a) && (a <? 0xF900)) ||
  ((0xF9A0 <=? a) && (a <? 0xFA00)) ||
  ((0xFAA0 <=? a) && (a <? 0xFB00)) ||
  ((0xFBA0 <=? a) && (a <? 0xFC00)).

(** The [do ... while (ret != 0 && retry < 3)] loop; [retry] is the counter
    on entry, [fuel] bounds the iterations. Returns the world, [ret] and
    [retry] on leaving the loop. *)
Fixpoint do_retry (fuel : nat) (w : world) (i2c_fd : Z) (retry : Z)
    (chunk : ihex_chunk) (next : option ihex_chunk) : option (world * Z * Z) :=
  match fuel with
  | O => None
  | S fuel' =>
      let retry := to_uint (retry + 1) in
      match program_chunk w i2c_fd chunk next with
      | None => None
      | Some (w, ret) =>
          if negb (ret =? 0) && (retry <? 3)
          then do_retry fuel' w i2c_fd retry chunk next
          else Some (w, ret, retry)
      end
  end.

(** The page loop of lines 427-446, entered with [chunk] at the head of
    [l]; [chunk = chunk->next->next] drops two records, and dereferences NULL
    when there is only one. Returns the world and [ret] on leaving the loop;
    [None] is undefined behaviour. *)
Fixpoint page_loop (w : world) (i2c_fd : Z) (ret : Z) (l : ihex_file)
  : option (world * Z) :=
  match l with
  | [] => Some (w, ret)
  | chunk :: rest =>
      if reserved (addr chunk) then
        match rest with
        | [] => None
        | _ :: rest' => page_loop w i2c_fd ret rest'
        end
      else
        match do_retry 3 w i2c_fd 0 chunk (head rest) with
        | None => None
        | Some (w, ret, _) =>
            if negb (ret =? 0) then Some (w, ret)
            else
              match rest with
              | [] => None
              | _ :: rest' => page_loop w i2c_fd ret rest'
              end
        end
  end.

Inductive outcome :=
  | Exit (status : Z) (w : world)     (* exit(status), or return from main *)
  | Undefined.                        (* undefined behaviour *)

(** Lines 404-423: open and address the adapter, halt the sequencing engine,
    enable EEPROM access. [None]: the process exits with status 1; [Some]:
    [i2c_fd] and [ret] on entering the page loop. *)
Definition device_setup (w : world) : world * option (Z * Z) :=
  let '(w, i2c_fd) := sys_open w I2CAdapter in
  if i2c_fd <? 0 then (w, None)
  else
    let '(w, ret) := sys_ioctl_slave w i2c_fd 0x34 in
    if ret <? 0 then (w, None)
    else
      let '(w, _) := sys_write w i2c_fd [0x93; 0x1] in
      let '(w, _) := sys_write w i2c_fd [0x90; 0x5] in
      (w, Some (i2c_fd, ret)).

(** Lines 448-464: back to normal mode, closing message, [return 0]. *)
Definition teardown (w : world) (fd : Z) (ret : Z) : outcome :=
  let '(w, _) := sys_write w fd [0x90; 0x0] in
  let w := log (EvBanner (ret =? 0)) w in
  Exit 0 w.

(** [main] from line 392 on: [fd] is the descriptor the hex file was read
    through, closed by now, and [file] is [ihex_file]. *)
Definition main_programming (w : world) (fd : Z) (file : ihex_file) : outcome :=
  if negb (validate file 0xf800) then Exit 1 w
  else
    match device_setup w with
    | (w, None) => Exit 1 w
    | (w, Some (i2c_fd, ret)) =>
        match page_loop w i2c_fd ret file with
        | None => Undefined
        | Some (w, ret) => teardown w fd ret
        end
    end.

(** [main]; [hex] is the content of the file [argv[1]] names. *)
Definition main (w : world) (hex : string) : outcome :=
  let '(w, fd) := sys_open w HexFile in
  if fd <? 0 then Exit 1 w
  else
    match Parser.parse_ihex hex with
    | None => Undefined
    | Some (ret, file) =>
        let w := sys_close w fd in
        if negb (ret =? 0) then Exit 1 w
        else main_programming w fd file
    end.

End Prog.

Import Parser Sys Prog.

(** * Vocabulary of the statements *)

(** The states in which the loop dereferences [chunk]. *)
Definition uses_chunk (q : state) : bool :=
  match q with
  | STATE_ADDRESS | STATE_TYPE | STATE_DATA | STATE_CHECKSUM => true
  | _ => false
  end.

Definition chunk_allocated (s : pstate) : Prop :=
  uses_chunk (st s) = true -> chunk s <> None.

Definition measure (s : pstate) : nat :=
  (2 * String.length (input s)
   + (if state_eqb (st s) STATE_DATA then 1 else 0))%nat.

(** [w'] comes after [w]: the descriptor table is the same, and the events
    that were added all satisfy [P]. *)
Definition extends (P : event -> Prop) (w w' : world) : Prop :=
  fdtab w' = fdtab w /\ uninit w' = uninit w /\
  exists evs, trace w' = trace w ++ evs /\ Forall P evs.

(** The erase trigger: a write of the single byte [0xFE]. *)
Definition is_erase_cmd (e : event) : bool :=
  match e with
  | EvWrite [b] => b =? 0xfe
  | _ => false
  end.

(** The page write: [0xFC], the page size, and data. *)
Definition is_write_cmd (e : event) : bool :=
  match e with
  | EvWrite (b :: _ :: _ :: _) => b =? 0xfc
  | _ => false
  end.

(** The two transfers of [adm_eeprom_read] at address [a]. *)
Definition read_event (a : Z) (e : event) : Prop :=
  e = EvWrite [addr_hi a; addr_lo a] \/ e = EvRdwr 0x34 [0xfd] 33.

(** A record as the parser builds it: fields within their C types, and as
    many data bytes as [len] says. *)
Definition chunk_wf (c : ihex_chunk) : Prop :=
  0 <= addr c < 2 ^ 16 /\ 0 <= len c < 2 ^ 8 /\
  length (data c) = Z.to_nat (len c).

(** What the loop maintains: the records in the list, and the one in
    progress, have their fields within their C types and as many data bytes
    as [len] says. *)
Definition builds_wf (s : pstate) : Prop :=
  Forall chunk_wf (file s) /\ (forall c, chunk s = Some c -> chunk_wf c).

(** Structural validity in the words of the design: every record has
    length 16, record [i] sits at [a + 16 i], and the last record, if there
    is one, is not at the start of a page. *)
Definition structurally_valid (l : ihex_file) (a : Z) : Prop :=
  (forall (i : nat) (c : ihex_chunk),
      l !! i = Some c -> len c = 16 /\ addr c = a + 16 * Z.of_nat i) /\
  (forall c : ihex_chunk, last l = Some c -> addr c mod 32 <> 0).

(** The four reserved ranges, bounds included. *)
Definition in_reserved_range (a : Z) : Prop :=
  0xF8A0 <= a <= 0xF8FF \/ 0xF9A0 <= a <= 0xF9FF \/
  0xFAA0 <= a <= 0xFAFF \/ 0xFBA0 <= a <= 0xFBFF.

(** ** The Intel-HEX subset of the input file, as the design describes it *)

Module IntelHex.

Definition hex_digit (n : Z) : ascii :=
  ascii_of_N (Z.to_N (if n <? 10 then n + 48 else n + 55)).

(** [k] hexadecimal digits of [v], most significant first, in front of [s]. *)
Fixpoint hex_digits (k : nat) (v : Z) (s : string) : string :=
  match k with
  | O => s
  | S k' => hex_digits k' (v / 16) (String (hex_digit (v mod 16)) s)
  end.

Definition encode_data (bs : list Z) (s : string) : string :=
  fold_right (fun b s => hex_digits 2 b s) s bs.

(** [:LLAAAA00DD...DDCC] and a newline. *)
Definition encode_record (c : ihex_chunk) (s : string) : string :=
  String ":"%char
    (hex_digits 2 (len c)
       (hex_digits 4 (addr c)
          (hex_digits 2 0
             (encode_data (data c)
                (hex_digits 2 (checksum c) (String "010"%char s)))))).

Definition encode_store (l : ihex_file) (s : string) : string :=
  fold_right encode_record s l.

Definition record_wf (c : ihex_chunk) : Prop :=
  chunk_wf c /\ 0 <= checksum c < 2 ^ 8 /\
  Forall (fun b => 0 <= b < 2 ^ 8) (data c).

End IntelHex.
Import IntelHex.

(** [reaches s s']: the loop of [parse_ihex], entered in [s], comes through
    [s']. *)
Inductive reaches : pstate -> pstate -> Prop :=
  | reaches_refl s : reaches s s
  | reaches_step s s1 s' :
      running s = true -> step s = Some s1 -> reaches s1 s' -> reaches s s'.

(** ** Vocabulary of the further properties *)

(** The characters [get_hex_token] takes for digits: [0]-[9] and [A]-[F]. *)
Definition is_hex_char (c : ascii) : bool :=
  let n := Z.of_N (N_of_ascii c) in
  ((48 <=? n) && (n <=? 57)) || ((65 <=? n) && (n <=? 70)).

(** The first [n] characters of [fd] are there and are such digits. *)
Fixpoint hex_prefix (n : nat) (fd : string) : bool :=
  match n with
  | O => true
  | S n' =>
      match fd with
      | EmptyString => false
      | String c rest => is_hex_char c && hex_prefix n' rest
      end
  end.

(** The characters [STATE_START_OF_LINE] passes over. *)
Definition is_space (c : ascii) : bool :=
  let n := Z.of_N (N_of_ascii c) in
  (n =? 10) || (n =? 13) || (n =? 9) || (n =? 32).

Fixpoint all_space (s : string) : bool :=
  match s with
  | EmptyString => true
  | String c rest => is_space c && all_space rest
  end.

(** [w] once the environment has given its next answers, [rest] being those
    still to come, [e] the value of [errno] and [evs] the events added. *)
Definition after (w : world) (e : Z) (rest : list answer) (evs : list event)
  : world :=
  mk_world (fdtab w) e rest (uninit w) (diag w) (trace w ++ evs).

(** The bytes to be programmed into the page of [c] and its successor. *)
Definition page_bytes (c nxt : ihex_chunk) : list Z :=
  take 16 (data c) ++ take 16 (data nxt).

(** The transfers of a page, in the order of the protocol. *)
Definition read_events (a : Z) : list event :=
  [EvWrite [addr_hi a; addr_lo a]; EvRdwr 0x34 [0xfd] 33].
Definition erase_events (a : Z) : list event :=
  [EvWrite [addr_hi a; addr_lo a]; EvWrite [0xfe]].
Definition write_events (a : Z) (wbuf : list Z) : list event :=
  [EvWrite [addr_hi a; addr_lo a]; EvWrite (0xfc :: 0x20 :: take 32 wbuf)].

(** A two-byte write, which is how a page address is sent, names [a]. *)
Definition addresses (a : Z) (e : event) : Prop :=
  forall h l : Z, e = EvWrite [h; l] -> h = addr_hi a /\ l = addr_lo a.

(** A two-byte write names the address of a record of [l] that is not in a
    reserved range. *)
Definition addresses_unreserved (l : ihex_file) (e : event) : Prop :=
  forall h lo : Z, e = EvWrite [h; lo] ->
    exists c, c ∈ l /\ reserved (addr c) = false /\
              h = addr_hi (addr c) /\ lo = addr_lo (addr c).

(** [pages_match l ans rest]: the answers [ans] are, for each page of [l]
    that is not reserved, an acknowledged address write and a transfer that
    delivers the bytes the page is to hold; [rest] are the answers left. *)
Inductive pages_match : ihex_file -> list answer -> list answer -> Prop :=
  | pages_match_nil rest : pages_match [] rest rest
  | pages_match_reserved c c' l ans rest :
      reserved (addr c) = true -> pages_match l ans rest ->
      pages_match (c :: c' :: l) ans rest
  | pages_match_read c c' l a1 a2 ans rest :
      reserved (addr c) = false ->
      a_ret a1 = 2 -> a_ret a2 = 2 ->
      a_data a2 = ADM_PAGE_SIZE :: page_bytes c c' ->
      pages_match l ans rest ->
      pages_match (c :: c' :: l) (a1 :: a2 :: ans) rest.

(** The first character is neither one [STATE_START_OF_LINE] passes over nor
    the colon, or there is none. *)
Definition starts_wrong (fd : string) : bool :=
  match fd with
  | EmptyString => true
  | String c _ =>
      negb (is_space c) && negb (Z.of_N (N_of_ascii c) =? 58)
  end.

(** The lines on which the parse fails, by the place of the failure: the
    first character; a field that is not made of as many hexadecimal digits
    as it takes, because of another character or because the stream ends
    (length, address, type, a data byte, the checksum); and the end-of-file
    marker, which the parser as written takes from no stream. *)
Inductive broken_line : string -> Prop :=
  | broken_start fd :
      starts_wrong fd = true -> broken_line fd
  | broken_length fd :
      hex_prefix 2 fd = false -> broken_line (String ":"%char fd)
  | broken_address n fd :
      0 <= n < 2 ^ 8 -> hex_prefix 4 fd = false ->
      broken_line (String ":"%char (hex_digits 2 n fd))
  | broken_type n a fd :
      0 <= n < 2 ^ 8 -> 0 <= a < 2 ^ 16 -> hex_prefix 2 fd = false ->
      broken_line (String ":"%char (hex_digits 2 n (hex_digits 4 a fd)))
  | broken_data n a bs fd :
      0 <= n < 2 ^ 8 -> 0 <= a < 2 ^ 16 ->
      Forall (fun b => 0 <= b < 2 ^ 8) bs -> (length bs < Z.to_nat n)%nat ->
      hex_prefix 2 fd = false ->
      broken_line
        (String ":"%char
           (hex_digits 2 n (hex_digits 4 a (hex_digits 2 0
              (encode_data bs fd)))))
  | broken_checksum n a bs fd :
      0 <= n < 2 ^ 8 -> 0 <= a < 2 ^ 16 ->
      Forall (fun b => 0 <= b < 2 ^ 8) bs -> length bs = Z.to_nat n ->
      hex_prefix 2 fd = false ->
      broken_line
        (String ":"%char
           (hex_digits 2 n (hex_digits 4 a (hex_digits 2 0
              (encode_data bs fd)))))
  | broken_end_of_file n a fd :
      0 <= n < 2 ^ 8 -> 0 <= a < 2 ^ 16 ->
      broken_line
        (String ":"%char (hex_digits 2 n (hex_digits 4 a (hex_digits 2 1 fd)))).


(** * Sample inputs *)

Module Samples.

Definition nl : string := String "010"%char EmptyString.

(** The standard end-of-file record. *)
Definition eof_line : string := ":00000001FF".

(** One page at [0xF800] as two data records, then the end-of-file record. *)
Definition page_hex : string :=
  (":10F80000" ++ "000102030405060708090A0B0C0D0E0F" ++ "80" ++ nl ++
   ":10F81000" ++ "101112131415161718191A1B1C1D1E1F" ++ "70" ++ nl ++
   eof_line ++ nl)%string.

(** A complete data record, then one that breaks off in a byte that is not
    hexadecimal. *)
Definition truncated_hex : string :=
  (":10F80000" ++ "000102030405060708090A0B0C0D0E0F" ++ "80" ++ nl ++
   ":10F81000" ++ "1011" ++ "zz")%string.

Definition low : ihex_chunk :=
  mk_chunk 0xF800 16 0x80 [0; 1; 2; 3; 4; 5; 6; 7; 8; 9; 10; 11; 12; 13; 14; 15].
Definition high : ihex_chunk :=
  mk_chunk 0xF810 16 0x70
           [16; 17; 18; 19; 20; 21; 22; 23; 24; 25; 26; 27; 28; 29; 30; 31].
Definition store : ihex_file := [low; high].

(** A page in the first reserved range. *)
Definition rlow : ihex_chunk := mk_chunk 0xF8A0 16 0 (replicate 16 0xAA).
Definition rhigh : ihex_chunk := mk_chunk 0xF8B0 16 0 (replicate 16 0xBB).

(** Answers of the environment. *)
Definition ok (n : Z) : answer := mk_answer n 0 [].
Definition failed : answer := mk_answer (-1) EIO [].
Definition page (l : list Z) : answer := mk_answer 2 0 (0x20 :: l).
Definition good : list Z := data low ++ data high.
Definition blank : list Z := replicate 32 0xFF.

(** A process with its three standard descriptors. *)
Definition fresh (ans : list answer) : world :=
  mk_world [Some Other; Some Other; Some Other] 0 ans [] [] [].
(** The same with the adapter open on descriptor 3. *)
Definition opened (ans : list answer) : world :=
  mk_world [Some Other; Some Other; Some Other; Some I2CAdapter] 0 ans [] []
           [].

(** One attempt at a page that reads back as [first] before, and as [second]
    after, erase and write. *)
Definition attempt (first second : list Z) : list answer :=
  [ok 2; page first; ok 2; ok 1; ok 2; ok 34; ok 2; page second].

(** The world [w] in which the diagnostics to come do [d] to [errno]. *)
Definition with_diag (d : list (option Z)) (w : world) : world :=
  mk_world (fdtab w) (errno w) (answers w) (uninit w) d (trace w).

Definition world_after (r : option (world * Z)) (w : world) : world :=
  match r with
  | Some (w', _) => w'
  | None => w
  end.

(** The worlds a page goes through when its first two attempts fail to
    verify and the third verifies. *)
Definition retry_w0 : world :=
  opened (attempt blank blank ++ attempt blank blank ++ attempt blank good).
Definition retry_w1 : world :=
  Eval vm_compute in
    world_after (program_chunk retry_w0 3 low (Some high)) retry_w0.
Definition retry_w2 : world :=
  Eval vm_compute in
    world_after (program_chunk retry_w1 3 low (Some high)) retry_w1.
Definition retry_w3 : world :=
  Eval vm_compute in
    world_after (program_chunk retry_w2 3 low (Some high)) retry_w2.

(** What the environment answers in a run that opens the hex file, sets the
    adapter up and then refuses the address write of every attempt. *)
Definition refusing : list answer :=
  [ok 0; ok 0; ok 0; ok 2; ok 2; failed; failed; failed; ok 2].
Definition refusing_w1 : world :=
  Eval vm_compute in fst (sys_open (fresh refusing) HexFile).
Definition refusing_w3 : world :=
  Eval vm_compute in fst (device_setup (sys_close refusing_w1 3)).

End Samples.

(** * Properties of the parser *)

Section ParserFacts.

Local Open Scope nat_scope.

Lemma get_token_cases fd c fd' :
  get_token fd = (c, fd') ->
  (c = (-1)%Z /\ fd = EmptyString /\ fd' = EmptyString) \/
  ((0 <= c < 256)%Z /\ S (String.length fd') = String.length fd).
Proof.
  destruct fd as [|a rest]; simpl; intros [= <- <-].
  - left. auto.
  - right. split; [|reflexivity].
    pose proof (N_ascii_bounded a). lia.
Qed.

Lemma get_hex_token_loop_length n : forall val fd ret val' fd',
  get_hex_token_loop n val fd = (ret, val', fd') ->
  String.length fd' <= String.length fd /\
  (ret = 0%Z \/ ret = (-1)%Z) /\
  (ret = 0%Z -> String.length fd' + n = String.length fd).
Proof.
  induction n as [|n IH]; intros val fd ret val' fd'; simpl.
  - intros [= <- <- <-]. lia.
  - destruct (get_token fd) as [c rest] eqn:Htok.
    apply get_token_cases in Htok.
    destruct (c <? 0)%Z eqn:Hneg.
    + intros [= <- <- <-].
      destruct Htok as [(-> & -> & ->)|[Hc _]]; [simpl; lia|lia].
    + destruct Htok as [(-> & _)|[Hc Hlen]]; [discriminate|].
      destruct ((48 <=? c)%Z && (c <=? 57)%Z);
        [|destruct ((65 <=? c)%Z && (c <=? 70)%Z)].
      * intros H. apply IH in H. lia.
      * intros H. apply IH in H. lia.
      * intros [= <- <- <-]. lia.
Qed.

Lemma get_hex_token_length fd n ret val fd' :
  get_hex_token fd n = (ret, val, fd') ->
  String.length fd' <= String.length fd /\
  (ret = 0%Z \/ ret = (-1)%Z) /\
  (ret = 0%Z -> String.length fd' + n = String.length fd).
Proof. apply get_hex_token_loop_length. Qed.

(** One hexadecimal digit is all [get_hex_token fd 1] reads: the value is
    below 16. *)
Lemma get_hex_token_1_small fd ret val fd' :
  get_hex_token fd 1 = (ret, val, fd') -> (0 <= val < 16)%Z.
Proof.
  unfold get_hex_token; simpl.
  destruct (get_token fd) as [c rest].
  destruct (c <? 0)%Z; [intros [= <- <- <-]; lia|].
  change (to_uint (Z.shiftl 0 4)) with 0%Z.
  destruct ((48 <=? c)%Z && (c <=? 57)%Z) eqn:Hd;
    [|destruct ((65 <=? c)%Z && (c <=? 70)%Z) eqn:Hx];
    intros [= <- <- <-]; rewrite ?Z.lor_0_l; lia.
Qed.

Lemma read_data_length n : forall i d fd ok d' fd',
  read_data n i d fd = (ok, d', fd') ->
  String.length fd' <= String.length fd.
Proof.
  induction n as [|n IH]; intros i d fd ok d' fd'; simpl.
  - intros [= <- <- <-]. lia.
  - destruct (get_hex_token fd 2) as [[ret tmp] rest] eqn:Htok.
    apply get_hex_token_length in Htok.
    destruct (ret <? 0)%Z.
    + intros [= <- <- <-]. lia.
    + intros H. apply IH in H. lia.
Qed.

End ParserFacts.

Section ParserRun.

Ltac token_cases H :=
  match goal with
  | |- context [get_hex_token ?fd ?n] =>
      destruct (get_hex_token fd n) as [[?ret ?tmp] ?fd'] eqn:H
  | |- context [get_token ?fd] =>
      destruct (get_token fd) as [?c ?fd'] eqn:H
  end.

Lemma step_progress s :
  running s = true -> chunk_allocated s ->
  exists s', step s = Some s' /\ chunk_allocated s' /\
             st s' <> STATE_DONE /\
             (running s' = true -> (measure s' < measure s)%nat).
Proof.
  destruct s as [q c f i]. unfold running, chunk_allocated, measure, step.
  destruct q; simpl; try discriminate; intros _ Hc.
  - (* STATE_START_OF_LINE *)
    token_cases Htok. apply get_token_cases in Htok.
    destruct ((c0 =? 10) || (c0 =? 13) || (c0 =? 9) || (c0 =? 32)) eqn:Hws;
      [|destruct (c0 =? 58) eqn:Hcolon];
      eexists; (split; [reflexivity|]); simpl;
      (split; [discriminate|]); (split; [discriminate|]);
      intros Hr; try discriminate Hr;
      destruct Htok as [(-> & _)|[_ Hlen]]; try discriminate; lia.
  - (* STATE_LINE_LENGTH *)
    token_cases Htok. apply get_hex_token_length in Htok.
    destruct (ret <? 0) eqn:Hret;
      eexists; (split; [reflexivity|]); simpl;
      (split; [discriminate|]); (split; [discriminate|]).
    + discriminate.
    + intros _. lia.
  - (* STATE_ADDRESS *)
    token_cases Htok. apply get_hex_token_length in Htok.
    destruct (ret <? 0) eqn:Hret.
    + eexists; (split; [reflexivity|]); simpl.
      split; [discriminate|]. split; discriminate.
    + destruct c as [c|]; [|exfalso; apply Hc; reflexivity].
      eexists; (split; [reflexivity|]); simpl.
      split; [discriminate|]. split; [discriminate|]. intros _. lia.
  - (* STATE_TYPE *)
    token_cases Htok. apply get_hex_token_length in Htok.
    destruct (ret <? 0) eqn:Hret;
      [|destruct (tmp =? 0) eqn:H0; [|destruct (tmp =? 1) eqn:H1]];
      eexists; (split; [reflexivity|]); simpl;
      (split; [try discriminate; auto|]); (split; [discriminate|]);
      try discriminate; intros _; lia.
  - (* STATE_DATA *)
    destruct c as [c|]; [|exfalso; apply Hc; reflexivity].
    destruct (read_data (Z.to_nat (len c)) 0 (data c) i) as [[ok d] fd'] eqn:Hrd.
    apply read_data_length in Hrd.
    eexists; (split; [reflexivity|]); simpl.
    split; [discriminate|]. destruct ok; simpl.
    + split; [discriminate|]. intros _. lia.
    + split; discriminate.
  - (* STATE_CHECKSUM *)
    token_cases Htok. apply get_hex_token_length in Htok.
    destruct (ret <? 0) eqn:Hret.
    + eexists; (split; [reflexivity|]); simpl.
      split; [discriminate|]. split; discriminate.
    + destruct c as [c|]; [|exfalso; apply Hc; reflexivity].
      eexists; (split; [reflexivity|]); simpl.
      split; [discriminate|]. split; [discriminate|]. intros _. lia.
  - (* STATE_END_OF_FILE: a single digit is never 0xff *)
    token_cases Htok. apply get_hex_token_1_small in Htok.
    replace (tmp =? 255) with false by lia.
    rewrite orb_true_r.
    eexists; (split; [reflexivity|]); simpl.
    split; [discriminate|]. split; discriminate.
Qed.

Lemma loop_stopped fuel s : running s = false -> loop fuel s = Some s.
Proof. intros H. destruct fuel; simpl; rewrite H; reflexivity. Qed.

Lemma not_running_error s :
  running s = false -> st s <> STATE_DONE -> st s = STATE_ERROR.
Proof. unfold running. destruct (st s); simpl; congruence. Qed.

(** From a state in which [STATE_DONE] has not been reached, the loop ends
    within [measure s + 1] iterations, and it ends in [STATE_ERROR]. *)
Lemma loop_ends_in_error fuel : forall s,
  chunk_allocated s -> st s <> STATE_DONE -> (measure s < fuel)%nat ->
  exists s', loop fuel s = Some s' /\ st s' = STATE_ERROR.
Proof.
  induction fuel as [|fuel IH]; intros s Hc Hd Hm; [lia|].
  destruct (running s) eqn:Hrun.
  - destruct (step_progress s Hrun Hc) as (s1 & Hstep & Hc1 & Hd1 & Hm1).
    simpl. rewrite Hrun, Hstep.
    destruct (running s1) eqn:Hrun1.
    + apply IH; auto. specialize (Hm1 eq_refl). lia.
    + exists s1. split; [apply loop_stopped; assumption|].
      apply not_running_error; assumption.
  - exists s. split; [apply loop_stopped; assumption|].
    apply not_running_error; assumption.
Qed.

(** [parse_ihex] returns on every input, and what it returns is [-1]. *)
Lemma parse_ihex_fails fd : exists file, parse_ihex fd = Some (-1, file).
Proof.
  unfold parse_ihex.
  destruct (loop_ends_in_error (enough_fuel fd) (init fd)) as (s & -> & Hs).
  - intros H. discriminate H.
  - discriminate.
  - unfold measure, enough_fuel, init. simpl. lia.
  - exists (file s). unfold finish. rewrite Hs. reflexivity.
Qed.

(** An iteration that ends in [STATE_ERROR] leaves the list as it was. *)
Lemma step_error_keeps_file s s' :
  step s = Some s' -> st s' = STATE_ERROR -> file s' = file s.
Proof.
  destruct s as [q c f i]. unfold step. destruct q; simpl.
  all: repeat match goal with
       | |- context [get_hex_token ?fd ?n] =>
           destruct (get_hex_token fd n) as [[? ?] ?]
       | |- context [get_token ?fd] => destruct (get_token fd) as [? ?]
       | |- context [read_data ?n ?j ?d ?fd] =>
           destruct (read_data n j d fd) as [[? ?] ?]
       | |- context [if ?b then _ else _] => destruct b
       | |- context [match ?c with Some _ => _ | None => _ end] => destruct c
       end;
       intros [= <-]; simpl; intros; try discriminate; reflexivity.
Qed.

End ParserRun.

(** * Properties of the system calls *)

Section SysFacts.

Lemma extends_refl P w : extends P w w.
Proof.
  repeat split. exists []. rewrite app_nil_r. split; [reflexivity|constructor].
Qed.

Lemma extends_trans P w1 w2 w3 :
  extends P w1 w2 -> extends P w2 w3 -> extends P w1 w3.
Proof.
  intros (Hf1 & Hu1 & e1 & Ht1 & HP1) (Hf2 & Hu2 & e2 & Ht2 & HP2).
  repeat split; [congruence|congruence|].
  exists (e1 ++ e2). rewrite Ht2, Ht1, app_assoc. split; [reflexivity|].
  apply Forall_app; auto.
Qed.

Lemma extends_weaken (P Q : event -> Prop) w w' :
  (forall e, P e -> Q e) -> extends P w w' -> extends Q w w'.
Proof.
  intros HPQ (Hf & Hu & evs & Ht & HP). repeat split; auto.
  exists evs. split; [assumption|]. eapply Forall_impl; eauto.
Qed.

Lemma next_answer_same w a w' :
  next_answer w = (a, w') ->
  fdtab w' = fdtab w /\ uninit w' = uninit w /\ trace w' = trace w.
Proof.
  unfold next_answer. destruct (answers w); intros [= <- <-]; auto.
Qed.

Lemma extends_log P e w0 w :
  extends P w0 w -> P e -> extends P w0 (log e w).
Proof.
  intros Hw He. eapply extends_trans; [exact Hw|].
  repeat split. exists [e]. split; [reflexivity|]. constructor; auto.
Qed.

Lemma extends_set_errno P n w0 w :
  extends P w0 w -> extends P w0 (set_errno n w).
Proof.
  intros Hw. eapply extends_trans; [exact Hw|].
  repeat split. exists []. simpl. rewrite app_nil_r. auto.
Qed.

Lemma extends_diag P w0 w :
  extends P w0 w -> extends P w0 (sys_diag w).
Proof.
  intros Hw. eapply extends_trans; [exact Hw|].
  unfold sys_diag. destruct (diag w) as [|[e|] rest];
    [apply extends_refl| |];
    repeat split; exists []; simpl; rewrite app_nil_r; auto.
Qed.

Lemma extends_next_answer P w a w' :
  next_answer w = (a, w') -> extends P w w'.
Proof.
  intros H. apply next_answer_same in H as (Hf & Hu & Ht).
  repeat split; auto. exists []. rewrite app_nil_r. auto.
Qed.

Lemma sys_write_extends w fd buf w' ret :
  sys_write w fd buf = (w', ret) -> extends (fun e => e = EvWrite buf) w w'.
Proof.
  unfold sys_write.
  destruct (fd_lookup (fdtab w) fd) as [[| |]|];
    try destruct (next_answer w) as [a wa] eqn:Ha; intros [= <- <-];
    repeat first [apply extends_log | apply extends_set_errno];
    eauto using extends_next_answer, extends_refl.
Qed.

Lemma sys_ioctl_rdwr_extends w fd a wl rl buf w' ret buf' :
  sys_ioctl_rdwr w fd a wl rl buf = (w', ret, buf') ->
  extends (fun e => e = EvRdwr a (take wl buf) rl) w w'.
Proof.
  unfold sys_ioctl_rdwr.
  destruct (fd_lookup (fdtab w) fd) as [[| |]|];
    try destruct (next_answer w) as [r wa] eqn:Ha; intros [= <- <- <-];
    repeat first [apply extends_log | apply extends_set_errno];
    eauto using extends_next_answer, extends_refl.
Qed.

(** A write that is told to go to the adapter reaches it. *)
Lemma sys_write_adapter w fd buf :
  fd_lookup (fdtab w) fd = Some I2CAdapter ->
  exists w' ret, sys_write w fd buf = (w', ret) /\
                 fdtab w' = fdtab w /\ trace w' = trace w ++ [EvWrite buf].
Proof.
  intros Hfd. unfold sys_write. rewrite Hfd.
  destruct (next_answer w) as [a wa] eqn:Ha.
  apply next_answer_same in Ha as (Hf & _ & Ht).
  eexists _, _. split; [reflexivity|]. simpl. rewrite Hf, Ht. auto.
Qed.

(** Descriptor allocation. *)
Lemma fd_install_cons x t n o :
  fd_install (Some x :: t) (S n) o = Some x :: fd_install t n o.
Proof.
  unfold fd_install. simpl.
  destruct (decide (S n < S (length t))%nat), (decide (n < length t)%nat);
    try lia; reflexivity.
Qed.

Lemma lookup_fd_install t o :
  fd_install t (lowest_free t) o !! lowest_free t = Some (Some o).
Proof.
  induction t as [|[x|] t IH]; simpl.
  - reflexivity.
  - rewrite fd_install_cons. exact IH.
  - reflexivity.
Qed.

(** Closing the descriptor that was opened last makes it the lowest free
    descriptor again. *)
Lemma lowest_free_reopen t o :
  lowest_free (<[lowest_free t := None]> (fd_install t (lowest_free t) o))
  = lowest_free t.
Proof.
  induction t as [|[x|] t IH]; simpl.
  - reflexivity.
  - rewrite fd_install_cons. simpl. rewrite IH. reflexivity.
  - reflexivity.
Qed.

End SysFacts.

(** * Properties of the page protocol *)

Section ProtocolFacts.

Lemma read_event_harmless a e :
  read_event a e -> is_erase_cmd e = false /\ is_write_cmd e = false.
Proof. intros [->| ->]; split; reflexivity. Qed.

Lemma adm_eeprom_read_extends w fd a rbuf w' ret rbuf' :
  adm_eeprom_read w fd a rbuf = (w', ret, rbuf') ->
  extends (read_event a) w w'.
Proof.
  unfold adm_eeprom_read. cbn [take app replicate Z.to_nat].
  destruct (sys_write w fd _) as [w1 r1] eqn:H1.
  apply sys_write_extends in H1.
  assert (E1 : extends (read_event a) w w1).
  { eapply extends_weaken; [|exact H1]. intros e ->. left. reflexivity. }
  destruct (negb (r1 =? 2));
    [intros [= <- <- <-]; apply extends_diag; exact E1|].
  destruct (sys_ioctl_rdwr w1 fd _ _ _ _) as [[w2 r2] buf2] eqn:H2.
  apply sys_ioctl_rdwr_extends in H2.
  assert (E2 : extends (read_event a) w w2).
  { eapply extends_trans; [exact E1|].
    eapply extends_weaken; [|exact H2]. intros e ->. right. reflexivity. }
  destruct (negb (r2 =? 2));
    [intros [= <- <- <-]; apply extends_diag; exact E2|].
  destruct (negb (nth 0 buf2 0 =? ADM_PAGE_SIZE)); intros [= <- <- <-]; exact E2.
Qed.

Lemma adm_eeprom_erase_extends w fd a w' ret :
  adm_eeprom_erase w fd a = (w', ret) -> extends (fun _ => True) w w'.
Proof.
  unfold adm_eeprom_erase.
  destruct (sys_write w fd _) as [w1 r1] eqn:H1.
  apply sys_write_extends, (extends_weaken _ (fun _ => True)) in H1; [|auto].
  destruct (negb (r1 =? 2));
    [intros [= <- <-]; apply extends_diag; exact H1|].
  destruct (sys_write w1 fd _) as [w2 r2] eqn:H2.
  apply sys_write_extends, (extends_weaken _ (fun _ => True)) in H2; [|auto].
  destruct (negb (r2 =? 1)); intros [= <- <-];
    try apply extends_diag; eapply extends_trans; eauto.
Qed.

Lemma adm_eeprom_write_extends w fd a wbuf w' ret :
  adm_eeprom_write w fd a wbuf = (w', ret) -> extends (fun _ => True) w w'.
Proof.
  unfold adm_eeprom_write.
  destruct (sys_write w fd _) as [w1 r1] eqn:H1.
  apply sys_write_extends, (extends_weaken _ (fun _ => True)) in H1; [|auto].
  destruct (negb (r1 =? 2));
    [intros [= <- <-]; apply extends_diag; exact H1|].
  destruct (sys_write w1 fd _) as [w2 r2] eqn:H2.
  apply sys_write_extends, (extends_weaken _ (fun _ => True)) in H2; [|auto].
  destruct (r2 <? 0); intros [= <- <-];
    try apply extends_diag; eapply extends_trans; eauto.
Qed.

Lemma sys_sleep_extends w n : extends (fun _ => True) w (sys_sleep w n).
Proof. apply extends_log; [apply extends_refl|exact I]. Qed.

Lemma program_chunk_extends w fd c next w' ret :
  program_chunk w fd c next = Some (w', ret) ->
  extends (fun _ => True) w w' /\ (ret = 0 \/ ret = -1).
Proof.
  unfold program_chunk.
  destruct (adm_eeprom_read w fd (addr c) (uninit w)) as [[w1 r1] rb1] eqn:H1.
  apply adm_eeprom_read_extends, (extends_weaken _ (fun _ => True)) in H1;
    [|auto].
  destruct (negb (r1 =? 0)); [intros [= <- <-]; auto|].
  destruct next as [nxt|]; [|discriminate].
  destruct (decide _); [|discriminate].
  destruct (page_eqb _ rb1); [intros [= <- <-]; auto|].
  destruct (adm_eeprom_erase w1 fd (addr c)) as [w2 r2] eqn:H2.
  apply adm_eeprom_erase_extends in H2.
  assert (E2 : extends (fun _ => True) w w2) by eauto using extends_trans.
  destruct (negb (r2 =? 0)); [intros [= <- <-]; auto|].
  destruct (adm_eeprom_write (sys_sleep w2 1) fd (addr c) _) as [w3 r3] eqn:H3.
  apply adm_eeprom_write_extends in H3.
  assert (E3 : extends (fun _ => True) w w3)
    by eauto using extends_trans, sys_sleep_extends.
  destruct (negb (r3 =? 0)); [intros [= <- <-]; auto|].
  destruct (adm_eeprom_read (sys_sleep w3 1) fd (addr c) rb1)
    as [[w4 r4] rb4] eqn:H4.
  apply adm_eeprom_read_extends, (extends_weaken _ (fun _ => True)) in H4;
    [|auto].
  assert (E4 : extends (fun _ => True) w w4)
    by eauto using extends_trans, sys_sleep_extends.
  destruct (_ =? 0); intros [= <- <-]; auto.
Qed.

(** With a successor whose data, like the chunk's own, holds 16 bytes,
    [program_chunk] is defined. *)
Lemma program_chunk_defined w fd c nxt :
  (16 <= length (data c))%nat -> (16 <= length (data nxt))%nat ->
  exists w' ret, program_chunk w fd c (Some nxt) = Some (w', ret).
Proof.
  intros Hc Hn. unfold program_chunk.
  destruct (adm_eeprom_read w fd (addr c) (uninit w)) as [[w1 r1] rb1].
  destruct (negb (r1 =? 0)); [eauto|].
  destruct (decide _) as [_|Hno]; [|exfalso; apply Hno; auto].
  destruct (page_eqb _ rb1); [eauto|].
  destruct (adm_eeprom_erase w1 fd (addr c)) as [w2 r2].
  destruct (negb (r2 =? 0)); [eauto|].
  destruct (adm_eeprom_write _ fd (addr c) _) as [w3 r3].
  destruct (negb (r3 =? 0)); [eauto|].
  destruct (adm_eeprom_read _ fd (addr c) rb1) as [[w4 r4] rb4].
  destruct (_ =? 0); eauto.
Qed.

End ProtocolFacts.

(** * Properties of the orchestrator *)

Section OrchestratorFacts.

Lemma pair_induction {A} (P : list A -> Prop) :
  P [] -> (forall x, P [x]) -> (forall x y l, P l -> P (x :: y :: l)) ->
  forall l, P l.
Proof.
  intros H0 H1 H2 l.
  assert (H : P l /\ forall x, P (x :: l)); [|apply H].
  induction l as [|y l [IHl IHxl]]; split; auto.
Qed.

Lemma validate_cons c rest a :
  validate (c :: rest) a = true ->
  len c = 16 /\ addr c = a /\ (addr c mod 32 = 0 -> rest <> []) /\
  validate rest (to_uint (a + 16)) = true.
Proof.
  simpl.
  destruct (len c =? 16) eqn:Hl; [|discriminate].
  destruct (addr c =? a) eqn:Ha; [|discriminate]. simpl.
  destruct (addr c mod 32 =? 0) eqn:Hm; simpl.
  - destruct rest; [discriminate|]. intros H.
    repeat split; try lia; [discriminate|exact H].
  - intros H. repeat split; try lia. exact H.
Qed.

(** A validated list that starts on a page boundary starts with a whole
    page. *)
Lemma validate_page c rest a :
  a mod 32 = 0 -> Forall chunk_wf (c :: rest) ->
  validate (c :: rest) a = true ->
  exists c' rest', rest = c' :: rest' /\
    len c = 16 /\ addr c = a /\ len c' = 16 /\ addr c' = a + 16 /\
    (a + 32) mod 32 = 0 /\ validate rest' (a + 32) = true.
Proof.
  intros Ha Hwf Hv. apply validate_cons in Hv as (Hl & Hc & Hne & Hv).
  inversion Hwf as [|? ? (Hrange & _) Hwf']; subst.
  destruct rest as [|c' rest']; [exfalso; apply Hne; auto|].
  unfold to_uint in Hv. rewrite Z.mod_small in Hv by lia.
  apply validate_cons in Hv as (Hl' & Hc' & _ & Hv).
  inversion Hwf' as [|? ? (Hrange' & _) _]; subst.
  unfold to_uint in Hv. rewrite Z.mod_small in Hv by lia.
  exists c', rest'. repeat split; auto; try lia.
  - rewrite <- Z.add_mod_idemp_l, Ha by lia. reflexivity.
  - replace (addr c + 32) with (addr c + 16 + 16) by lia. exact Hv.
Qed.

Lemma do_retry_extends fuel : forall w fd retry c next w' ret n,
  do_retry fuel w fd retry c next = Some (w', ret, n) ->
  0 <= retry < 3 ->
  extends (fun _ => True) w w' /\ (ret = 0 \/ ret = -1) /\ retry < n <= 3.
Proof.
  induction fuel as [|fuel IH]; intros w fd retry c next w' ret n; simpl;
    [discriminate|].
  intros H Hr.
  destruct (program_chunk w fd c next) as [[w1 r1]|] eqn:Hp; [|discriminate].
  apply program_chunk_extends in Hp as (E1 & Hr1).
  assert (Hu : to_uint (retry + 1) = retry + 1)
    by (unfold to_uint; apply Z.mod_small; lia).
  rewrite Hu in H.
  destruct (negb (r1 =? 0) && (retry + 1 <? 3)) eqn:Hcond.
  - apply IH in H as (E2 & Hret & Hn); [|lia].
    split; [eauto using extends_trans|]. split; [assumption|lia].
  - injection H as <- <- <-. split; [assumption|]. split; [assumption|lia].
Qed.

(** Three iterations are all the [do ... while] loop can make. *)
Lemma do_retry_defined w fd c next :
  (forall w, exists w' ret, program_chunk w fd c next = Some (w', ret)) ->
  exists w' ret n, do_retry 3 w fd 0 c next = Some (w', ret, n).
Proof.
  intros Hdef. simpl.
  destruct (Hdef w) as (w1 & r1 & ->).
  destruct (negb (r1 =? 0)); simpl; [|eauto].
  destruct (Hdef w1) as (w2 & r2 & ->).
  destruct (negb (r2 =? 0)); simpl; [|eauto].
  destruct (Hdef w2) as (w3 & r3 & ->).
  rewrite andb_false_r. eauto.
Qed.

Lemma page_loop_extends : forall l w fd ret w' ret',
  page_loop w fd ret l = Some (w', ret') -> extends (fun _ => True) w w'.
Proof.
  induction l as [| |c c' l IH] using pair_induction;
    intros w fd ret w' ret'; cbn [page_loop hd_error].
  - intros [= <- <-]. apply extends_refl.
  - destruct (reserved (addr x)); [discriminate|].
    destruct (do_retry 3 w fd 0 x None) as [[[w2 r2] n]|] eqn:Hd;
      [|discriminate].
    apply do_retry_extends in Hd as (E & _); [|lia].
    destruct (negb (r2 =? 0)); [|discriminate].
    intros [= <- <-]. exact E.
  - destruct (reserved (addr c)); [apply IH|].
    destruct (do_retry 3 w fd 0 c (Some c')) as [[[w2 r2] n]|] eqn:Hd;
      [|discriminate].
    apply do_retry_extends in Hd as (E & _); [|lia].
    destruct (negb (r2 =? 0)).
    + intros [= <- <-]. exact E.
    + intros H. apply IH in H. eauto using extends_trans.
Qed.

(** On a validated list the page loop never leaves defined behaviour. *)
Lemma page_loop_defined : forall l a w fd ret,
  a mod 32 = 0 -> Forall chunk_wf l -> validate l a = true ->
  exists w' ret', page_loop w fd ret l = Some (w', ret').
Proof.
  induction l as [| |c c' l IH] using pair_induction;
    intros a w fd ret Ha Hwf Hv.
  - simpl. eauto.
  - apply validate_page in Hv as (? & ? & [=] & _); assumption.
  - pose proof (validate_page _ _ _ Ha Hwf Hv)
      as (c1 & l1 & [= <- <-] & Hl & _ & Hl' & _ & Ha' & Hv').
    inversion Hwf as [|? ? (_ & _ & Hd) Hwf1]; subst.
    inversion Hwf1 as [|? ? (_ & _ & Hd') Hwf2]; subst.
    cbn [page_loop hd_error].
    destruct (reserved (addr c)); [eapply IH; eassumption|].
    destruct (do_retry_defined w fd c (Some c')) as (w2 & r2 & n & ->).
    { intros w1. apply program_chunk_defined; lia. }
    destruct (negb (r2 =? 0)); [eauto|].
    eapply IH; eassumption.
Qed.

Lemma validate_spec : forall (l : ihex_file) (a : Z),
  0 <= a < 2 ^ 16 + 16 -> Forall chunk_wf l ->
  (validate l a = true <-> structurally_valid l a).
Proof.
  induction l as [|c rest IH]; intros a Ha Hwf.
  - split; [|reflexivity]. intros _. split.
    + intros i c Hi. destruct i; discriminate Hi.
    + discriminate.
  - inversion Hwf as [|? ? (Hrange & _) Hwf']; subst.
    split.
    + intros Hv. apply validate_cons in Hv as (Hl & Hc & Hne & Hv).
      unfold to_uint in Hv. rewrite Z.mod_small in Hv by lia.
      apply IH in Hv as (Hidx & Hlast); [|lia|assumption].
      split.
      * intros [|i] c0 Hi; simpl in Hi.
        -- injection Hi as <-. split; [assumption|lia].
        -- apply Hidx in Hi as (? & ?). split; [assumption|lia].
      * intros c0. destruct rest as [|c1 rest].
        -- intros [= <-] Hm. apply Hne; auto.
        -- intros Hl0. apply Hlast. exact Hl0.
    + intros (Hidx & Hlast).
      destruct (Hidx 0%nat c eq_refl) as (Hl & Hc).
      simpl. replace (len c =? 16) with true by lia.
      replace (addr c =? a) with true by lia. simpl.
      assert (Hrest : structurally_valid rest (a + 16)).
      { split.
        - intros i c0 Hi. destruct (Hidx (S i) c0 Hi) as (? & ?).
          split; [assumption|lia].
        - intros c0 Hl0. apply Hlast.
          destruct rest; [discriminate Hl0|exact Hl0]. }
      unfold to_uint. rewrite (Z.mod_small (a + 16)) by lia.
      destruct rest as [|c1 rest].
      * specialize (Hlast c eq_refl).
        destruct (Z.eqb_spec (addr c mod 32) 0) as [E|E];
          [contradiction|reflexivity].
      * rewrite andb_false_r. apply IH; [lia|assumption|assumption].
Qed.

(** In a validated list every record at an even position starts a page and
    is followed by the record that completes it. *)
Lemma validate_pairs : forall (l : ihex_file) (a : Z),
  a mod 32 = 0 -> Forall chunk_wf l -> validate l a = true ->
  forall (i : nat) (c : ihex_chunk),
    l !! (2 * i)%nat = Some c ->
    exists c', l !! (2 * i + 1)%nat = Some c' /\
               addr c' = addr c + 16 /\ addr c mod 32 = 0.
Proof.
  induction l as [| |c0 c1 l IH] using pair_induction;
    intros a Ha Hwf Hv i c Hi.
  - destruct i; discriminate Hi.
  - apply validate_page in Hv as (? & ? & [=] & _); assumption.
  - pose proof (validate_page _ _ _ Ha Hwf Hv)
      as (c' & l' & [= <- <-] & _ & Hc0 & _ & Hc1 & Ha' & Hv').
    inversion Hwf as [|? ? _ Hwf1]; subst.
    inversion Hwf1 as [|? ? _ Hwf2]; subst.
    destruct i as [|i].
    + injection Hi as <-. exists c1. simpl. repeat split; auto; lia.
    + replace (2 * S i)%nat with (S (S (2 * i))) in Hi by lia.
      replace (2 * S i + 1)%nat with (S (S (2 * i + 1))) by lia.
      simpl in Hi |- *. eapply IH; eassumption.
Qed.

(** ** Descriptors *)

Lemma of_nat_ltb_0 (n : nat) : (Z.of_nat n <? 0) = false.
Proof. apply Z.ltb_ge. lia. Qed.

Lemma sys_open_ok w o w' fd :
  sys_open w o = (w', fd) -> 0 <= fd ->
  fd = Z.of_nat (lowest_free (fdtab w)) /\
  fdtab w' = fd_install (fdtab w) (lowest_free (fdtab w)) o.
Proof.
  unfold sys_open. destruct (next_answer w) as [a wa] eqn:Ha.
  apply next_answer_same in Ha as (Hf & _).
  destruct (a_ret a <? 0); intros [= <- <-] Hfd; [lia|].
  simpl. rewrite Hf. auto.
Qed.

Lemma sys_close_fdtab w (n : nat) :
  fdtab (sys_close w (Z.of_nat n)) = <[n := None]> (fdtab w).
Proof.
  unfold sys_close. rewrite of_nat_ltb_0, Nat2Z.id. reflexivity.
Qed.

Lemma sys_ioctl_slave_fdtab w fd a w' ret :
  sys_ioctl_slave w fd a = (w', ret) -> fdtab w' = fdtab w.
Proof.
  unfold sys_ioctl_slave.
  destruct (fd_lookup (fdtab w) fd) as [[| |]|];
    try destruct (next_answer w) as [r wr] eqn:Hr;
    intros [= <- <-]; simpl; try reflexivity.
  apply next_answer_same in Hr as (-> & _). reflexivity.
Qed.

(** The descriptor the hex file was read through is, once closed, the one
    the adapter is opened on. *)
Lemma device_setup_descriptor w0 w1 fd w3 i2c_fd ret :
  sys_open w0 HexFile = (w1, fd) -> 0 <= fd ->
  device_setup (sys_close w1 fd) = (w3, Some (i2c_fd, ret)) ->
  i2c_fd = fd /\ fd_lookup (fdtab w3) fd = Some I2CAdapter.
Proof.
  intros Hopen Hfd.
  apply sys_open_ok in Hopen as (-> & Hf1); [|assumption].
  set (n := lowest_free (fdtab w0)) in *.
  pose proof (sys_close_fdtab w1 n) as Hf2. rewrite Hf1 in Hf2.
  assert (Hn : lowest_free (fdtab (sys_close w1 (Z.of_nat n))) = n)
    by (rewrite Hf2; apply lowest_free_reopen).
  unfold device_setup.
  destruct (sys_open _ I2CAdapter) as [wa fa] eqn:Ha.
  destruct (fa <? 0) eqn:Hneg; [discriminate|].
  apply sys_open_ok in Ha as (-> & Hfa); [|lia].
  rewrite Hn in Hfa |- *.
  destruct (sys_ioctl_slave wa _ _) as [wb rb] eqn:Hs.
  apply sys_ioctl_slave_fdtab in Hs.
  destruct (rb <? 0); [discriminate|].
  destruct (sys_write wb _ _) as [wc rc] eqn:Hw1.
  destruct (sys_write wc _ _) as [wd rd] eqn:Hw2.
  apply sys_write_extends in Hw1 as (Hfc & _).
  apply sys_write_extends in Hw2 as (Hfd' & _).
  intros [= <- <- <-]. split; [reflexivity|].
  rewrite Hfd', Hfc, Hs, Hfa. unfold fd_lookup.
  rewrite of_nat_ltb_0, Nat2Z.id.
  set (t := fdtab (sys_close w1 (Z.of_nat n))) in *.
  rewrite <- Hn, lookup_fd_install. reflexivity.
Qed.

End OrchestratorFacts.

(** * Data records are read back as they were written *)

Section RoundTrip.

Lemma lor_shift_digit acc d :
  0 <= acc < 2 ^ 28 -> 0 <= d < 16 ->
  Z.lor (to_uint (Z.shiftl acc 4)) d = 16 * acc + d.
Proof.
  intros Hacc Hd. unfold to_uint.
  rewrite Z.shiftl_mul_pow2 by lia. rewrite Z.mod_small by lia.
  assert (Hland : Z.land (acc * 2 ^ 4) d = 0).
  { apply Z.bits_inj'. intros n Hn. rewrite Z.land_spec, Z.bits_0.
    destruct (Z.lt_ge_cases n 4) as [Hlt|Hge].
    - rewrite Z.mul_pow2_bits_low by lia. reflexivity.
    - rewrite (Z.bits_above_log2 d n), andb_false_r; [reflexivity|lia|].
      destruct (Z.eq_dec d 0) as [->|Hnz]; [simpl; lia|].
      apply Z.lt_le_trans with 4; [|lia].
      apply Z.log2_lt_pow2; lia. }
  pose proof (Z.add_lor_land (acc * 2 ^ 4) d). lia.
Qed.

Lemma get_token_hex_digit d s :
  0 <= d < 16 ->
  get_token (String (hex_digit d) s)
  = (if d <? 10 then d + 48 else d + 55, s).
Proof.
  intros Hd. unfold get_token, hex_digit.
  rewrite N_ascii_embedding.
  - rewrite Z2N.id; [reflexivity|]. destruct (d <? 10); lia.
  - destruct (d <? 10) eqn:E; lia.
Qed.

Lemma get_hex_token_loop_digit k acc d s :
  0 <= d < 16 -> 0 <= acc < 2 ^ 28 ->
  get_hex_token_loop (S k) acc (String (hex_digit d) s)
  = get_hex_token_loop k (16 * acc + d) s.
Proof.
  intros Hd Hacc. cbn [get_hex_token_loop].
  rewrite get_token_hex_digit by assumption.
  destruct (d <? 10) eqn:E.
  - replace (d + 48 <? 0) with false by lia.
    replace ((48 <=? d + 48) && (d + 48 <=? 57)) with true by lia.
    replace (d + 48 - 48) with d by lia.
    rewrite lor_shift_digit by assumption. reflexivity.
  - replace (d + 55 <? 0) with false by lia.
    replace ((48 <=? d + 55) && (d + 55 <=? 57)) with false by lia.
    replace ((65 <=? d + 55) && (d + 55 <=? 70)) with true by lia.
    replace (d + 55 - 65 + 10) with d by lia.
    rewrite lor_shift_digit by assumption. reflexivity.
Qed.

Lemma get_hex_token_loop_digits k : forall v acc s m,
  0 <= acc -> (acc + 1) * 16 ^ Z.of_nat k <= 2 ^ 32 ->
  get_hex_token_loop (k + m) acc (hex_digits k v s)
  = get_hex_token_loop m (acc * 16 ^ Z.of_nat k + v mod 16 ^ Z.of_nat k) s.
Proof.
  induction k as [|k IH]; intros v acc s m Hacc Hfit.
  - simpl. rewrite Z.mod_1_r. f_equal. lia.
  - cbn [hex_digits].
    replace (S k + m)%nat with (k + S m)%nat by lia.
    assert (Hpow : 16 ^ Z.of_nat (S k) = 16 * 16 ^ Z.of_nat k)
      by (rewrite Nat2Z.inj_succ, Z.pow_succ_r; lia).
    assert (Hpos : 0 < 16 ^ Z.of_nat k) by (apply Z.pow_pos_nonneg; lia).
    rewrite Hpow in Hfit.
    rewrite IH by nia.
    pose proof (Z.mod_pos_bound (v / 16) (16 ^ Z.of_nat k) Hpos) as Hm.
    pose proof (Z.mod_pos_bound v 16 ltac:(lia)) as Hm16.
    rewrite get_hex_token_loop_digit; [|lia|nia].
    f_equal. rewrite Hpow, Z.rem_mul_r by lia. lia.
Qed.

Lemma get_hex_token_digits (k : nat) v s :
  (k <= 8)%nat -> 0 <= v < 16 ^ Z.of_nat k ->
  get_hex_token (hex_digits k v s) k = (0, v, s).
Proof.
  intros Hk Hv. unfold get_hex_token.
  replace k with (k + 0)%nat at 1 by lia.
  rewrite get_hex_token_loop_digits.
  - simpl. rewrite Z.mod_small by assumption. reflexivity.
  - lia.
  - rewrite Z.mul_1_l. change (2 ^ 32) with (16 ^ 8).
    apply Z.pow_le_mono_r; lia.
Qed.

Lemma reaches_trans s1 s2 s3 : reaches s1 s2 -> reaches s2 s3 -> reaches s1 s3.
Proof.
  induction 1 as [|s s1 s2 Hrun Hstep _ IH]; [auto|].
  intros H3. eapply reaches_step; eauto.
Qed.

Lemma reaches_loop s s' :
  reaches s s' ->
  forall fuel r, loop fuel s = Some r -> exists fuel', loop fuel' s' = Some r.
Proof.
  induction 1 as [|s s1 s' Hrun Hstep _ IH]; intros fuel r Hloop; [eauto|].
  destruct fuel as [|fuel]; simpl in Hloop; rewrite Hrun in Hloop;
    [discriminate|].
  rewrite Hstep in Hloop. eauto.
Qed.

Lemma read_data_encoded bs : forall i d s,
  Forall (fun b => 0 <= b < 2 ^ 8) bs ->
  (i + length bs <= length d)%nat ->
  read_data (length bs) i d (encode_data bs s)
  = (true, take i d ++ bs ++ drop (i + length bs) d, s).
Proof.
  induction bs as [|b bs IH]; intros i d s Hb Hlen; simpl.
  - rewrite Nat.add_0_r, take_drop. reflexivity.
  - inversion Hb as [|? ? Hb0 Hbs]; subst. simpl in Hlen.
    change (String (hex_digit ((b / 16) mod 16))
              (String (hex_digit (b mod 16)) (encode_data bs s)))
      with (hex_digits 2 b (encode_data bs s)).
    rewrite get_hex_token_digits by (simpl; lia). simpl.
    rewrite IH; [|assumption|rewrite length_insert; lia].
    unfold to_uchar. rewrite Z.mod_small by lia.
    f_equal. f_equal.
    rewrite (take_S_r _ i b)
      by (apply list_lookup_insert_eq; lia).
    rewrite take_insert_ge by lia.
    rewrite drop_insert_lt by lia.
    rewrite <- app_assoc. simpl.
    replace (i + S (length bs))%nat with (S (i + length bs)) by lia.
    reflexivity.
Qed.

Lemma record_parsed (c : ihex_chunk) (f : ihex_file) (s : string) :
  record_wf c ->
  reaches (mk_pstate STATE_START_OF_LINE None f (encode_record c s))
          (mk_pstate STATE_START_OF_LINE None (f ++ [c]) s).
Proof.
  intros ((Haddr & Hlen & Hdata) & Hsum & Hbytes).
  destruct c as [a n k d]. simpl in *. unfold encode_record. simpl addr.
  simpl len. simpl checksum. simpl data.
  eapply reaches_step; [reflexivity|reflexivity|].
  eapply reaches_step; [reflexivity| |].
  { unfold step. cbn [st input].
    rewrite get_hex_token_digits by (simpl; lia). reflexivity. }
  eapply reaches_step; [reflexivity| |].
  { unfold step. cbn [st input chunk].
    rewrite get_hex_token_digits by (simpl; lia). reflexivity. }
  eapply reaches_step; [reflexivity| |].
  { unfold step. cbn [st input chunk].
    rewrite get_hex_token_digits by (simpl; lia). reflexivity. }
  eapply reaches_step; [reflexivity| |].
  { unfold step. cbn [st input chunk len data addr checksum].
    unfold to_uchar at 1. rewrite Z.mod_small by lia.
    rewrite <- Hdata.
    rewrite read_data_encoded;
      [reflexivity|assumption|rewrite length_replicate; lia]. }
  eapply reaches_step; [reflexivity| |].
  { unfold step. cbn [st input chunk].
    rewrite get_hex_token_digits by (simpl; lia). reflexivity. }
  eapply reaches_step; [reflexivity|reflexivity|].
  cbn [len addr checksum data].
  unfold to_uchar, to_ushort. rewrite !Z.mod_small by lia.
  rewrite drop_ge by (rewrite length_replicate; lia).
  rewrite app_nil_r. simpl. apply reaches_refl.
Qed.

Lemma store_parsed (l : ihex_file) : forall (f : ihex_file) (s : string),
  Forall record_wf l ->
  reaches (mk_pstate STATE_START_OF_LINE None f (encode_store l s))
          (mk_pstate STATE_START_OF_LINE None (f ++ l) s).
Proof.
  induction l as [|c l IH]; intros f s Hwf; simpl.
  - rewrite app_nil_r. apply reaches_refl.
  - inversion Hwf; subst.
    eapply reaches_trans; [apply record_parsed; assumption|].
    replace (f ++ c :: l) with ((f ++ [c]) ++ l)
      by (rewrite <- app_assoc; reflexivity).
    apply IH. assumption.
Qed.

Lemma eof_line_rejected (f : ihex_file) :
  reaches (mk_pstate STATE_START_OF_LINE None f ":00000001FF")
          (mk_pstate STATE_ERROR (Some (mk_chunk 0 0 0 [])) f "F").
Proof.
  do 5 (eapply reaches_step; [reflexivity|vm_compute; reflexivity|]).
  apply reaches_refl.
Qed.

(** Any list of records, written out as data lines and followed by the
    end-of-file record, is read back exactly, and then refused. *)
Lemma encoded_store_rejected (l : ihex_file) :
  Forall record_wf l ->
  parse_ihex (encode_store l ":00000001FF") = Some (-1, l).
Proof.
  intros Hwf. unfold parse_ihex.
  set (hex := encode_store l ":00000001FF").
  destruct (loop_ends_in_error (enough_fuel hex) (init hex))
    as (r & Hr & Herr).
  - intros H. discriminate H.
  - discriminate.
  - unfold measure, enough_fuel, init. simpl. lia.
  - rewrite Hr.
    assert (Hreach : reaches (init hex)
              (mk_pstate STATE_ERROR (Some (mk_chunk 0 0 0 [])) l "F")).
    { eapply reaches_trans; [apply (store_parsed l [] _ Hwf)|].
      apply eof_line_rejected. }
    destruct (reaches_loop _ _ Hreach _ _ Hr) as (fuel' & Hl).
    rewrite loop_stopped in Hl by reflexivity.
    injection Hl as <-. reflexivity.
Qed.

End RoundTrip.

(** * The records the parser builds *)

Section ParserBuilds.

Lemma get_hex_token_loop_bound n : forall acc fd val fd',
  get_hex_token_loop n acc fd = (0, val, fd') ->
  0 <= acc -> (acc + 1) * 16 ^ Z.of_nat n <= 2 ^ 32 ->
  0 <= val < (acc + 1) * 16 ^ Z.of_nat n.
Proof.
  induction n as [|n IH]; intros acc fd val fd'.
  - simpl. intros [= <- <-]. lia.
  - cbn [get_hex_token_loop].
    assert (Hpow : 16 ^ Z.of_nat (S n) = 16 * 16 ^ Z.of_nat n)
      by (rewrite Nat2Z.inj_succ, Z.pow_succ_r; lia).
    assert (Hpos : 0 < 16 ^ Z.of_nat n) by (apply Z.pow_pos_nonneg; lia).
    rewrite Hpow.
    destruct (get_token fd) as [c rest].
    destruct (c <? 0) eqn:Hneg; [intros [= -> <- <-]; lia|].
    destruct ((48 <=? c) && (c <=? 57)) eqn:Hdig;
      [|destruct ((65 <=? c) && (c <=? 70)) eqn:Hhex; [|discriminate]];
      intros H Hacc Hfit;
      rewrite lor_shift_digit in H by nia;
      apply IH in H; nia.
Qed.

Lemma get_hex_token_byte fd val fd' :
  get_hex_token fd 2 = (0, val, fd') -> 0 <= val < 2 ^ 8.
Proof.
  intros H. apply get_hex_token_loop_bound in H; simpl in *; lia.
Qed.

Lemma read_data_keeps_length n : forall i d fd ok d' fd',
  read_data n i d fd = (ok, d', fd') -> length d' = length d.
Proof.
  induction n as [|n IH]; intros i d fd ok d' fd'; simpl.
  - intros [= <- <- <-]. reflexivity.
  - destruct (get_hex_token fd 2) as [[ret tmp] rest].
    destruct (ret <? 0); [intros [= <- <- <-]; reflexivity|].
    intros H. apply IH in H. rewrite H, length_insert. reflexivity.
Qed.

Lemma step_builds_wf s s' :
  step s = Some s' -> builds_wf s -> builds_wf s'.
Proof.
  destruct s as [q c f i]. unfold step, builds_wf. simpl.
  intros Hstep (Hf & Hc). destruct q.
  - destruct (get_token i) as [t rest].
    repeat match type of Hstep with
           | context [if ?b then _ else _] => destruct b
           end; injection Hstep as <-; simpl; auto.
  - destruct (get_hex_token i 2) as [[ret tmp] rest] eqn:Htok.
    destruct (ret <? 0) eqn:Hret; injection Hstep as <-; simpl; [auto|].
    split; [assumption|]. intros c0 [= <-].
    apply get_hex_token_length in Htok as Hl. destruct Hl as (_ & [ -> | -> ] & _);
      [|discriminate].
    apply get_hex_token_byte in Htok.
    unfold chunk_wf, to_uchar. simpl.
    rewrite Z.mod_small, length_replicate by lia. lia.
  - destruct (get_hex_token i 4) as [[ret tmp] rest].
    destruct (ret <? 0); [injection Hstep as <-; simpl; auto|].
    destruct c as [c|]; [|discriminate]. injection Hstep as <-. simpl.
    split; [assumption|]. intros c0 [= <-].
    destruct (Hc c eq_refl) as (_ & Hlen & Hdata).
    unfold chunk_wf, to_ushort. simpl.
    pose proof (Z.mod_pos_bound tmp (2 ^ 16)). lia.
  - destruct (get_hex_token i 2) as [[ret tmp] rest].
    repeat match type of Hstep with
           | context [if ?b then _ else _] => destruct b
           end; injection Hstep as <-; simpl; auto.
  - destruct c as [c|]; [|discriminate].
    destruct (read_data _ _ _ _) as [[ok d] rest] eqn:Hrd.
    apply read_data_keeps_length in Hrd.
    injection Hstep as <-. simpl. split; [assumption|]. intros c0 [= <-].
    destruct (Hc c eq_refl) as (Haddr & Hlen & Hdata).
    unfold chunk_wf. simpl. rewrite Hrd. auto.
  - destruct (get_hex_token i 2) as [[ret tmp] rest].
    destruct (ret <? 0); [injection Hstep as <-; simpl; auto|].
    destruct c as [c|]; [|discriminate]. injection Hstep as <-. simpl.
    split; [|discriminate]. apply Forall_app. split; [assumption|].
    constructor; [|constructor].
    destruct (Hc c eq_refl) as (Haddr & Hlen & Hdata).
    unfold chunk_wf. simpl. auto.
  - destruct (get_hex_token i 1) as [[ret tmp] rest].
    destruct (_ || _); injection Hstep as <-; simpl; auto.
  - injection Hstep as <-. simpl. auto.
  - injection Hstep as <-. simpl. auto.
Qed.

Lemma loop_builds_wf fuel : forall s s',
  loop fuel s = Some s' -> builds_wf s -> builds_wf s'.
Proof.
  induction fuel as [|fuel IH]; intros s s'; simpl;
    destruct (running s); try discriminate;
    try (intros [= <-]; auto; fail).
  destruct (step s) as [s1|] eqn:Hstep; [|discriminate].
  intros Hloop Hwf. eapply IH; [exact Hloop|].
  eapply step_builds_wf; eassumption.
Qed.

(** Whatever [parse_ihex] leaves in [*file] is a list of such records. *)
Lemma parse_ihex_builds_wf fd ret f :
  parse_ihex fd = Some (ret, f) -> Forall chunk_wf f.
Proof.
  unfold parse_ihex.
  destruct (loop (enough_fuel fd) (init fd)) as [s|] eqn:Hloop;
    [|discriminate].
  intros [= _ <-]. apply loop_builds_wf in Hloop as (Hf & _); [exact Hf|].
  split; [constructor|discriminate].
Qed.

End ParserBuilds.

(** * The parser: end-of-file record and errors *)

Section ParserClaims.
Import Samples.

(** Whatever leads to it, the step from [STATE_END_OF_FILE] consumes at most
    one character and ends in [STATE_ERROR]. *)
Lemma end_of_file_always_error (s : pstate) :
  st s = STATE_END_OF_FILE ->
  exists s', step s = Some s' /\ st s' = STATE_ERROR /\
             (String.length (input s) <= S (String.length (input s')))%nat.
Proof.
  destruct s as [q c f i]. simpl. intros ->. unfold step. simpl.
  destruct (get_hex_token i 1) as [[ret tmp] fd'] eqn:Htok.
  pose proof (get_hex_token_1_small _ _ _ _ Htok) as Hsmall.
  replace (tmp =? 255) with false by lia. rewrite orb_true_r.
  eexists. split; [reflexivity|]. simpl. split; [reflexivity|].
  revert Htok. unfold get_hex_token. simpl.
  destruct i as [|a i]; simpl; [intros [= <- <- <-]; simpl; lia|].
  repeat match goal with
         | |- context [if ?b then _ else _] => destruct b
         end; intros [= <- <- <-]; lia.
Qed.

(** C1 (the code departs from it). The claim: in [STATE_END_OF_FILE] the
    parser reads one pair of hex digits, goes to [STATE_DONE] when the value
    is [0xFF], and rejects the stream otherwise. The code calls
    [get_hex_token(fd, 1, &tmp)], which reads a single digit: on the input
    [FF] only the first [F] is consumed, [tmp] is 15, and the state is
    [STATE_ERROR]; the standard end-of-file record is rejected. *)
Theorem end_of_file_FF_rejected :
  step (mk_pstate STATE_END_OF_FILE (Some (mk_chunk 0 0 0 [])) [] "FF")
  = Some (mk_pstate STATE_ERROR (Some (mk_chunk 0 0 0 [])) [] "F")
  /\ parse_ihex eof_line = Some (-1, []).
Proof. split; vm_compute; reflexivity. Qed.

(** C2 (the code departs from it). The claim: a well-formed stream of N
    data records and a valid end-of-file record parses successfully into
    those N records. On two data records followed by [:00000001FF] the code
    builds the two records exactly as encoded, and then returns [-1]. *)
Theorem well_formed_stream_rejected :
  parse_ihex page_hex = Some (-1, [low; high]).
Proof. vm_compute. reflexivity. Qed.

(** [parse_ihex] returning [-1] on every input, [main] always exits with
    status 1, and before anything has reached the adapter. *)
Lemma main_parse_failure (w : world) (hex : string) :
  exists w', main w hex = Exit 1 w' /\ trace w' = trace w.
Proof.
  unfold main. destruct (sys_open w HexFile) as [w1 fd] eqn:Hopen.
  assert (Ht : trace w1 = trace w).
  { revert Hopen. unfold sys_open.
    destruct (next_answer w) as [a wa] eqn:Ha.
    apply next_answer_same in Ha as (_ & _ & Ht).
    destruct (a_ret a <? 0); intros [= <- <-]; exact Ht. }
  destruct (fd <? 0); [eauto|].
  destruct (parse_ihex_fails hex) as (f & ->). simpl.
  eexists. split; [reflexivity|].
  unfold sys_close. destruct (fd <? 0); exact Ht.
Qed.

End ParserClaims.

(** * The orchestrator: validation, pages, retries, teardown, exit status *)

Section OrchestratorClaims.
Import Samples.

Lemma sample_store_wf : Forall chunk_wf store.
Proof.
  repeat constructor; simpl; lia.
Qed.

(** C5. The validation loop accepts a list exactly when every record has
    length 16, record [i] is at [0xF800 + 16 i], and the last record is not
    at the start of a 32-byte page; and when it rejects, [main] exits with
    status 1 in the world it was entered in: no descriptor opened, nothing
    sent to the adapter. *)
Theorem structural_validation (l : ihex_file) :
  Forall chunk_wf l ->
  (validate l 0xF800 = true <-> structurally_valid l 0xF800) /\
  (validate l 0xF800 = false ->
   forall (w : world) (fd : Z), main_programming w fd l = Exit 1 w).
Proof.
  intros Hwf. split.
  - apply validate_spec; [lia|assumption].
  - intros Hv w fd. unfold main_programming. rewrite Hv. reflexivity.
Qed.

Lemma structural_validation_witness :
  structurally_valid store 0xF800 /\
  main_programming (fresh []) 3 [low] = Exit 1 (fresh []).
Proof.
  split.
  - apply (proj1 (structural_validation store sample_store_wf)).
    reflexivity.
  - apply (proj2 (structural_validation [low]
                    (Forall_cons_2 _ _ _ (Forall_inv sample_store_wf)
                                   (Forall_nil_2 _)))).
    reflexivity.
Defined.

(** C10. On a validated list the page loop never dereferences a missing
    record, whatever the adapter answers; and every record at an even
    position, which are the ones the loop visits, is followed by a record 16
    bytes further and sits on a 32-byte boundary. *)
Theorem page_pairs_safe (l : ihex_file) :
  Forall chunk_wf l -> validate l 0xF800 = true ->
  (forall (w : world) (fd ret : Z),
      exists w' ret', page_loop w fd ret l = Some (w', ret')) /\
  (forall (i : nat) (c : ihex_chunk),
      l !! (2 * i)%nat = Some c ->
      exists c', l !! (2 * i + 1)%nat = Some c' /\
                 addr c' = addr c + 16 /\ addr c mod 32 = 0).
Proof.
  intros Hwf Hv. split.
  - intros w fd ret. eapply page_loop_defined; [|eassumption|eassumption].
    reflexivity.
  - eapply validate_pairs; [|eassumption|eassumption]. reflexivity.
Qed.

Lemma page_pairs_safe_witness :
  (exists w' ret', page_loop (opened []) 3 0 store = Some (w', ret')) /\
  (exists c', store !! 1%nat = Some c' /\
              addr c' = addr low + 16 /\ addr low mod 32 = 0).
Proof.
  destruct (page_pairs_safe store sample_store_wf eq_refl) as (Hloop & Hpair).
  split.
  - apply Hloop.
  - apply (Hpair 0%nat low). reflexivity.
Defined.

(** C7. A page whose address is in a reserved range is passed over: the
    loop goes on with the next page in the same world (nothing was sent,
    [program_chunk] was not called) and with [ret] as it was, whatever the
    data of the two records. *)
Theorem reserved_page_skipped (w : world) (fd ret : Z) (c c' : ihex_chunk)
    (rest : ihex_file) :
  in_reserved_range (addr c) ->
  page_loop w fd ret (c :: c' :: rest) = page_loop w fd ret rest.
Proof.
  intros Hr. cbn [page_loop].
  replace (reserved (addr c)) with true; [reflexivity|].
  unfold reserved, in_reserved_range in *. lia.
Qed.

Lemma reserved_page_skipped_witness :
  page_loop (opened []) 3 0 [rlow; rhigh] = Some (opened [], 0).
Proof.
  rewrite (reserved_page_skipped (opened []) 3 0 rlow rhigh []).
  - reflexivity.
  - left. simpl. lia.
Defined.

(** C8. When the first read of the page succeeds and returns the 32 bytes
    that are to be programmed, [program_chunk] returns 0 in the world the
    read left: the only events are those of the read, none of which is an
    erase trigger or a page write. *)
Theorem identical_page_not_rewritten (w w1 : world) (fd : Z)
    (c nxt : ihex_chunk) (rbuf : list Z) :
  (16 <= length (data c))%nat -> (16 <= length (data nxt))%nat ->
  adm_eeprom_read w fd (addr c) (uninit w) = (w1, 0, rbuf) ->
  rbuf = take 16 (data c) ++ take 16 (data nxt) ->
  program_chunk w fd c (Some nxt) = Some (w1, 0) /\
  exists evs, trace w1 = trace w ++ evs /\
              Forall (fun e => is_erase_cmd e = false /\
                               is_write_cmd e = false) evs.
Proof.
  intros Hc Hn Hread Hsame. split.
  - unfold program_chunk. rewrite Hread. simpl.
    destruct (decide _) as [_|Hno]; [|exfalso; apply Hno; auto].
    unfold page_eqb. rewrite Hsame, bool_decide_eq_true_2; reflexivity.
  - apply adm_eeprom_read_extends in Hread as (_ & _ & evs & Ht & Hev).
    exists evs. split; [assumption|].
    eapply Forall_impl; [exact Hev|]. apply read_event_harmless.
Qed.

Lemma identical_page_not_rewritten_witness :
  program_chunk (opened [ok 2; page good]) 3 low (Some high)
  = Some (world_after
            (program_chunk (opened [ok 2; page good]) 3 low (Some high))
            (opened []), 0).
Proof.
  apply (identical_page_not_rewritten
           (opened [ok 2; page good]) _ 3 low high good).
  - simpl. lia.
  - simpl. lia.
  - vm_compute. reflexivity.
  - reflexivity.
Defined.

(** C6. A page gets at most three attempts. When the first two fail, the
    third decides: the loop leaves with [retry = 3]; if the third attempt
    succeeded the page loop goes on with the next page, and if it failed the
    page loop stops there, in the world the third attempt left, with the
    remaining pages untouched. *)
Theorem bounded_retry (w0 w1 w2 w3 : world) (fd ret r1 r2 r3 : Z)
    (c c' : ihex_chunk) (rest : ihex_file) :
  reserved (addr c) = false ->
  program_chunk w0 fd c (Some c') = Some (w1, r1) -> r1 <> 0 ->
  program_chunk w1 fd c (Some c') = Some (w2, r2) -> r2 <> 0 ->
  program_chunk w2 fd c (Some c') = Some (w3, r3) ->
  do_retry 3 w0 fd 0 c (Some c') = Some (w3, r3, 3) /\
  (r3 = 0 ->
   page_loop w0 fd ret (c :: c' :: rest) = page_loop w3 fd 0 rest) /\
  (r3 <> 0 ->
   page_loop w0 fd ret (c :: c' :: rest) = Some (w3, r3)) /\
  (forall w fd0 c0 next w' ret' n,
      do_retry 3 w fd0 0 c0 next = Some (w', ret', n) -> 1 <= n <= 3).
Proof.
  intros Hres H1 Hr1 H2 Hr2 H3.
  assert (Hretry : do_retry 3 w0 fd 0 c (Some c') = Some (w3, r3, 3)).
  { assert (Hn1 : negb (r1 =? 0) = true) by lia.
    assert (Hn2 : negb (r2 =? 0) = true) by lia.
    cbn [do_retry]. rewrite H1, Hn1.
    change (to_uint (0 + 1)) with 1. cbn [andb Z.ltb Z.compare Pos.compare
                                           Pos.compare_cont].
    rewrite H2, Hn2.
    change (to_uint (1 + 1)) with 2. cbn [andb Z.ltb Z.compare Pos.compare
                                           Pos.compare_cont].
    rewrite H3, andb_false_r. reflexivity. }
  split; [exact Hretry|]. split; [|split].
  - intros ->. cbn [page_loop hd_error]. rewrite Hres, Hretry. reflexivity.
  - intros Hr3. assert (Hn3 : negb (r3 =? 0) = true) by lia.
    cbn [page_loop hd_error]. rewrite Hres, Hretry, Hn3. reflexivity.
  - intros w fd0 c0 next w' ret' n H.
    apply do_retry_extends in H as (_ & _ & Hn); lia.
Qed.

Lemma bounded_retry_witness :
  do_retry 3 retry_w0 3 0 low (Some high) = Some (retry_w3, 0, 3).
Proof.
  refine (proj1 (bounded_retry retry_w0 retry_w1 retry_w2 retry_w3
                   3 0 (-1) (-1) 0 low high [] _ _ _ _ _ _)).
  - reflexivity.
  - vm_compute. reflexivity.
  - discriminate.
  - vm_compute. reflexivity.
  - discriminate.
  - vm_compute. reflexivity.
Defined.

(** When all three attempts fail (here the verifying read never matches),
    the second page is not attempted: the run ends after 3 attempts at the
    first. *)
Lemma three_failures_stop_the_run :
  exists w,
    page_loop
      (opened (attempt blank blank ++ attempt blank blank
               ++ attempt blank blank ++ [ok 2; page good]))
      3 0 (store ++ [mk_chunk 0xF820 16 0 (data low);
                     mk_chunk 0xF830 16 0 (data high)])
    = Some (w, -1) /\ answers w = [ok 2; page good].
Proof. eexists. split; vm_compute; reflexivity. Qed.

(** C3. Once the adapter is set up, on a validated list, the page loop
    comes to an end, with [ret] zero or not, and the write of [0x90, 0x00]
    that follows reaches the adapter: [main] names [fd], the descriptor the
    hex file was read through, which [open] handed out again for the
    adapter when it was the lowest free one. *)
Theorem teardown_reaches_adapter (w0 w1 w3 : world) (fd i2c_fd ret0 : Z)
    (l : ihex_file) :
  sys_open w0 HexFile = (w1, fd) -> 0 <= fd ->
  Forall chunk_wf l -> validate l 0xF800 = true ->
  device_setup (sys_close w1 fd) = (w3, Some (i2c_fd, ret0)) ->
  exists w4 ret w5,
    page_loop w3 i2c_fd ret0 l = Some (w4, ret) /\
    main_programming (sys_close w1 fd) fd l = Exit 0 w5 /\
    trace w5 = trace w4 ++ [EvWrite [0x90; 0x0]; EvBanner (ret =? 0)].
Proof.
  intros Hopen Hfd Hwf Hv Hsetup.
  destruct (device_setup_descriptor _ _ _ _ _ _ Hopen Hfd Hsetup)
    as (-> & Hlookup).
  destruct (page_loop_defined l 0xF800 w3 fd ret0 eq_refl Hwf Hv)
    as (w4 & ret & Hloop).
  destruct (page_loop_extends _ _ _ _ _ _ Hloop) as (Hf & _).
  rewrite <- Hf in Hlookup.
  destruct (sys_write_adapter w4 fd [0x90; 0x0] Hlookup)
    as (w5 & r5 & Hw & _ & Ht).
  exists w4, ret, (log (EvBanner (ret =? 0)) w5).
  split; [exact Hloop|]. split.
  - unfold main_programming. rewrite Hv, Hsetup, Hloop. simpl.
    unfold teardown. rewrite Hw. reflexivity.
  - simpl. rewrite Ht, <- app_assoc. reflexivity.
Qed.

Lemma teardown_reaches_adapter_witness :
  exists w4 ret w5,
    page_loop refusing_w3 3 0 store = Some (w4, ret) /\
    main_programming (sys_close refusing_w1 3) 3 store = Exit 0 w5 /\
    trace w5 = trace w4 ++ [EvWrite [0x90; 0x0]; EvBanner (ret =? 0)].
Proof.
  apply (teardown_reaches_adapter (fresh refusing) refusing_w1 refusing_w3
                                  3 3 0 store).
  - vm_compute. reflexivity.
  - lia.
  - exact sample_store_wf.
  - reflexivity.
  - vm_compute. reflexivity.
Defined.

(** The write of the teardown goes where [fd] points: were that descriptor
    free, nothing would reach the adapter. *)
Lemma teardown_on_free_descriptor (w : world) (fd ret : Z) :
  fd_lookup (fdtab w) fd = None ->
  exists w', teardown w fd ret = Exit 0 w' /\
             trace w' = trace w ++ [EvBanner (ret =? 0)].
Proof.
  intros Hfree. unfold teardown, sys_write. rewrite Hfree.
  eexists. split; reflexivity.
Qed.


(** The code from line 392 on, taken by itself: the adapter is set up, every
    attempt at the first page fails (the address write is refused three
    times), the page loop stops with [ret = -1], the failure message is
    printed, and [main] returns 0. *)
Lemma programming_failure_exits_zero :
  exists w,
    main_programming
      (fresh (tail refusing)) 3 store
    = Exit 0 w /\
    trace w = [EvSlave 0x34; EvWrite [0x93; 0x1]; EvWrite [0x90; 0x5];
               EvWrite [0xF8; 0x00]; EvWrite [0xF8; 0x00];
               EvWrite [0xF8; 0x00];
               EvWrite [0x90; 0x0]; EvBanner false].
Proof. eexists. split; vm_compute; reflexivity. Qed.

End OrchestratorClaims.

(** * Further properties of the parser *)

Section ParserExtras.
Import Samples.

Lemma get_hex_token_loop_ret n : forall acc fd,
  fst (fst (get_hex_token_loop n acc fd)) = if hex_prefix n fd then 0 else -1.
Proof.
  induction n as [|n IH]; intros acc fd; [reflexivity|].
  cbn [get_hex_token_loop hex_prefix].
  destruct fd as [|c rest]; [reflexivity|].
  cbn [get_token]. unfold is_hex_char.
  set (k := Z.of_N (N_of_ascii c)).
  assert (Hk : 0 <= k) by (subst k; lia).
  replace (k <? 0) with false by lia.
  destruct ((48 <=? k) && (k <=? 57)) eqn:Hd; cbn [orb andb].
  - apply IH.
  - destruct ((65 <=? k) && (k <=? 70)) eqn:Hx; cbn [andb].
    + apply IH.
    + reflexivity.
Qed.

(** X2. [get_hex_token(fd, len, &val)] returns 0 when the next [len]
    characters are there and are all among [0]-[9], [A]-[F], and -1
    otherwise: at the end of the stream, on a lowercase digit, on anything
    else. *)
Theorem hex_token_accepts_exactly_hex (fd : string) (n : nat) :
  fst (fst (get_hex_token fd n)) = if hex_prefix n fd then 0 else -1.
Proof. apply get_hex_token_loop_ret. Qed.

(** X1. Reading back what was written: [k] hexadecimal digits of [v], for
    up to 8 digits, are decoded by [get_hex_token] to [v], with return code
    0 and the stream left just behind them. *)
Theorem hex_digits_round_trip (k : nat) (v : Z) (s : string) :
  (k <= 8)%nat -> 0 <= v < 16 ^ Z.of_nat k ->
  get_hex_token (hex_digits k v s) k = (0, v, s).
Proof. apply get_hex_token_digits. Qed.

Lemma hex_digits_round_trip_witness :
  get_hex_token (hex_digits 4 0xF8A0 "00") 4 = (0, 0xF8A0, "00"%string).
Proof.
  apply (hex_digits_round_trip 4 0xF8A0 "00"); simpl; lia.
Defined.

(** X3. A successful [get_hex_token] of [n] digits, [n] at most 8, yields a
    value below [16^n]: a byte for 2 digits, 16 bits for 4. *)
Theorem hex_token_value_bound (fd fd' : string) (n : nat) (val : Z) :
  (n <= 8)%nat -> get_hex_token fd n = (0, val, fd') ->
  0 <= val < 16 ^ Z.of_nat n.
Proof.
  intros Hn H. apply get_hex_token_loop_bound in H.
  - lia.
  - lia.
  - rewrite Z.mul_1_l. change (2 ^ 32) with (16 ^ 8).
    apply Z.pow_le_mono_r; lia.
Qed.

Lemma hex_token_value_bound_witness : 0 <= 0xF810 < 16 ^ Z.of_nat 4.
Proof.
  apply (hex_token_value_bound "F81000" "00" 4 0xF810).
  - lia.
  - vm_compute. reflexivity.
Defined.

(** X4. [parse_ihex] comes to an end on every input, without ever
    dereferencing a NULL [chunk], and its return code is -1: no input makes
    it return 0. *)
Theorem parse_ihex_never_succeeds (fd : string) :
  exists file, parse_ihex fd = Some (-1, file).
Proof. apply parse_ihex_fails. Qed.

(** X5. Every record [parse_ihex] leaves in the list has its address below
    [2^16], its length below [2^8], and exactly [len] data bytes. *)
Theorem parsed_records_well_formed (fd : string) (ret : Z) (f : ihex_file) :
  parse_ihex fd = Some (ret, f) -> Forall chunk_wf f.
Proof. apply parse_ihex_builds_wf. Qed.

Lemma parsed_records_well_formed_witness : Forall chunk_wf [low].
Proof.
  apply (parsed_records_well_formed truncated_hex (-1) [low]).
  vm_compute. reflexivity.
Defined.

(** X6. Data records written as [:LLAAAA00DD...DDCC] lines are read back
    field by field, in order, whatever the checksum byte is (it is stored,
    not checked); the end-of-file record that follows is then refused. *)
Theorem data_records_read_back (l : ihex_file) :
  Forall record_wf l ->
  parse_ihex (encode_store l ":00000001FF") = Some (-1, l).
Proof. apply encoded_store_rejected. Qed.

Lemma data_records_read_back_witness :
  parse_ihex (encode_store [mk_chunk 0xF800 2 0x33 [0xAB; 0xCD]] ":00000001FF")
  = Some (-1, [mk_chunk 0xF800 2 0x33 [0xAB; 0xCD]]).
Proof.
  apply (data_records_read_back [mk_chunk 0xF800 2 0x33 [0xAB; 0xCD]]).
  repeat constructor; simpl; lia.
Defined.

Lemma loop_fuel_irrelevant f1 : forall f2 s r1 r2,
  loop f1 s = Some r1 -> loop f2 s = Some r2 -> r1 = r2.
Proof.
  induction f1 as [|f1 IH]; intros f2 s r1 r2; destruct f2 as [|f2]; simpl;
    destruct (running s); try discriminate; try congruence.
  destruct (step s) as [s1|]; [|discriminate]. apply IH.
Qed.

(** Two streams that bring the loop to one state are parsed alike. *)
Lemma reaches_same_parse fd1 fd2 s :
  reaches (init fd1) s -> reaches (init fd2) s ->
  parse_ihex fd1 = parse_ihex fd2.
Proof.
  intros H1 H2. unfold parse_ihex.
  destruct (loop_ends_in_error (enough_fuel fd1) (init fd1)) as (r1 & Hr1 & _);
    [intros H; discriminate H|discriminate
    |unfold measure, enough_fuel, init; simpl; lia|].
  destruct (loop_ends_in_error (enough_fuel fd2) (init fd2)) as (r2 & Hr2 & _);
    [intros H; discriminate H|discriminate
    |unfold measure, enough_fuel, init; simpl; lia|].
  rewrite Hr1, Hr2.
  destruct (reaches_loop _ _ H1 _ _ Hr1) as (g1 & Hg1).
  destruct (reaches_loop _ _ H2 _ _ Hr2) as (g2 & Hg2).
  rewrite (loop_fuel_irrelevant _ _ _ _ _ Hg1 Hg2). reflexivity.
Qed.

Lemma spaces_passed (ws : string) : forall ch f fd,
  all_space ws = true ->
  reaches (mk_pstate STATE_START_OF_LINE ch f (ws ++ fd))
          (mk_pstate STATE_START_OF_LINE ch f fd).
Proof.
  induction ws as [|c ws IH]; intros ch f fd Hws; simpl.
  - apply reaches_refl.
  - simpl in Hws. apply andb_prop in Hws as (Hc & Hws).
    eapply reaches_step; [reflexivity| |apply IH; assumption].
    unfold step. cbn [st input get_token chunk file].
    unfold is_space in Hc. cbv zeta in Hc. rewrite Hc. reflexivity.
Qed.

(** X7. Newlines, carriage returns, tabs and blanks in front of a record
    are passed over: in [STATE_START_OF_LINE] the loop comes through the
    same state with them consumed, and a stream parses as it does without
    such characters in front. *)
Theorem leading_whitespace_ignored (ws fd : string) :
  all_space ws = true ->
  (forall ch f,
      reaches (mk_pstate STATE_START_OF_LINE ch f (ws ++ fd))
              (mk_pstate STATE_START_OF_LINE ch f fd)) /\
  parse_ihex (ws ++ fd) = parse_ihex fd.
Proof.
  intros Hws. split.
  - intros ch f. apply spaces_passed. assumption.
  - apply (reaches_same_parse _ _ (init fd)).
    + apply spaces_passed. assumption.
    + apply reaches_refl.
Qed.

Lemma leading_whitespace_ignored_witness :
  parse_ihex (String "010"%char (String " "%char page_hex))
  = parse_ihex page_hex.
Proof.
  apply (proj2 (leading_whitespace_ignored
                  (String "010"%char (String " "%char EmptyString)) page_hex
                  eq_refl)).
Defined.

Lemma header_parsed (n a : Z) (fd : string) :
  0 <= n < 2 ^ 8 -> 0 <= a < 2 ^ 16 ->
  reaches (init (String ":"%char (hex_digits 2 n (hex_digits 4 a fd))))
          (mk_pstate STATE_TYPE
             (Some (mk_chunk a n 0 (replicate (Z.to_nat n) 0))) [] fd).
Proof.
  intros Hn Ha.
  eapply reaches_step; [reflexivity|reflexivity|].
  eapply reaches_step; [reflexivity| |].
  { unfold step. cbn [st input].
    rewrite get_hex_token_digits by (simpl; lia). reflexivity. }
  eapply reaches_step; [reflexivity| |].
  { unfold step. cbn [st input chunk].
    rewrite get_hex_token_digits by (simpl; lia). reflexivity. }
  cbn [len checksum data addr].
  unfold to_uchar, to_ushort. rewrite !Z.mod_small by lia.
  apply reaches_refl.
Qed.

(** X8. A record type other than 0 and 1 is no error: the parser stays in
    [STATE_TYPE] and takes the two digits that follow for the type. A line
    with such a type byte parses as the same line with that byte left out. *)
Theorem unknown_type_dropped (n a t : Z) (fd : string) :
  0 <= n < 2 ^ 8 -> 0 <= a < 2 ^ 16 -> 2 <= t < 2 ^ 8 ->
  parse_ihex (String ":"%char
                (hex_digits 2 n (hex_digits 4 a (hex_digits 2 t fd))))
  = parse_ihex (String ":"%char (hex_digits 2 n (hex_digits 4 a fd))).
Proof.
  intros Hn Ha Ht.
  apply (reaches_same_parse _ _
           (mk_pstate STATE_TYPE
              (Some (mk_chunk a n 0 (replicate (Z.to_nat n) 0))) [] fd)).
  - eapply reaches_trans; [apply header_parsed; assumption|].
    eapply reaches_step; [reflexivity| |apply reaches_refl].
    unfold step. cbn [st input chunk file].
    rewrite get_hex_token_digits by (simpl; lia).
    replace (t =? 0) with false by lia. replace (t =? 1) with false by lia.
    reflexivity.
  - apply header_parsed; assumption.
Qed.

Lemma unknown_type_dropped_witness :
  parse_ihex (":02F800" ++ "04" ++ "00ABCD12")
  = parse_ihex (":02F800" ++ "00ABCD12").
Proof.
  apply (unknown_type_dropped 2 0xF800 4 "00ABCD12"); lia.
Defined.

Lemma step_file_grows s s' :
  step s = Some s' -> exists more, file s' = file s ++ more.
Proof.
  destruct s as [q c f i]. unfold step. destruct q; simpl.
  all: repeat match goal with
       | |- context [get_hex_token ?fd ?n] =>
           destruct (get_hex_token fd n) as [[? ?] ?]
       | |- context [get_token ?fd] => destruct (get_token fd) as [? ?]
       | |- context [read_data ?n ?j ?d ?fd] =>
           destruct (read_data n j d fd) as [[? ?] ?]
       | |- context [if ?b then _ else _] => destruct b
       | |- context [match ?c with Some _ => _ | None => _ end] => destruct c
       end;
       intros [= <-]; simpl; try discriminate;
       first [exists []; rewrite app_nil_r; reflexivity | eexists; reflexivity].
Qed.

(** X9. The list is append-only: whatever the loop does from a state on,
    the records that were in the list stay, in place, at its front. *)
Theorem file_only_grows (fuel : nat) (s s' : pstate) :
  loop fuel s = Some s' -> exists more, file s' = file s ++ more.
Proof.
  revert s. induction fuel as [|fuel IH]; intros s; simpl;
    destruct (running s);
    try discriminate;
    try (intros [= <-]; exists []; rewrite app_nil_r; reflexivity).
  destruct (step s) as [s1|] eqn:Hstep; [|discriminate].
  intros Hloop. apply IH in Hloop as (m2 & H2).
  apply step_file_grows in Hstep as (m1 & H1).
  exists (m1 ++ m2). rewrite H2, H1, app_assoc. reflexivity.
Qed.

Lemma file_only_grows_witness :
  exists more,
    file (mk_pstate STATE_ERROR
            (Some (mk_chunk 0xF810 16 0 ([16; 17] ++ replicate 14 0)))
            [low] "z")
    = file (init truncated_hex) ++ more.
Proof.
  apply (file_only_grows (enough_fuel truncated_hex) (init truncated_hex)).
  vm_compute. reflexivity.
Defined.

(** X10. [main] as a whole: whatever the file holds and whatever the
    environment answers, the process exits with status 1 and nothing is sent
    to the adapter (the file could not be opened, or [parse_ihex] returned
    -1). *)
Theorem main_never_reaches_adapter (w : world) (hex : string) :
  exists w', main w hex = Exit 1 w' /\ trace w' = trace w.
Proof. apply main_parse_failure. Qed.

End ParserExtras.

(** * Further properties of the page protocol and the orchestrator *)

Section ProtocolExtras.
Import Samples.

Lemma after_after w e1 r1 evs1 e2 r2 evs2 :
  after (after w e1 r1 evs1) e2 r2 evs2 = after w e2 r2 (evs1 ++ evs2).
Proof. unfold after. simpl. rewrite <- app_assoc. reflexivity. Qed.

Lemma sys_write_answered w fd buf a rest :
  fd_lookup (fdtab w) fd = Some I2CAdapter -> answers w = a :: rest ->
  sys_write w fd buf = (after w (a_errno a) rest [EvWrite buf], a_ret a).
Proof.
  intros Hfd Hans. unfold sys_write, next_answer. rewrite Hfd, Hans.
  reflexivity.
Qed.

Lemma sys_ioctl_rdwr_answered w fd a wl rl buf r rest :
  fd_lookup (fdtab w) fd = Some I2CAdapter -> answers w = r :: rest ->
  sys_ioctl_rdwr w fd a wl rl buf
  = (after w (a_errno r) rest [EvRdwr a (take wl buf) rl], a_ret r,
     overlay (take rl (a_data r)) buf).
Proof.
  intros Hfd Hans. unfold sys_ioctl_rdwr, next_answer. rewrite Hfd, Hans.
  reflexivity.
Qed.

Lemma overlay_full (new old : list Z) :
  length new = length old -> overlay new old = new.
Proof.
  intros H. unfold overlay. rewrite drop_ge by lia.
  rewrite app_nil_r, <- H. apply firstn_all.
Qed.

Lemma overlay_head (b d : Z) (m old : list Z) :
  (0 < length old)%nat -> nth 0 (overlay (b :: m) old) d = b.
Proof.
  intros H. destruct old as [|x old]; [simpl in H; lia|]. reflexivity.
Qed.

Lemma addr_bytes_spec (a : Z) :
  0 <= a < 2 ^ 16 ->
  0 <= addr_hi a < 2 ^ 8 /\ 0 <= addr_lo a < 2 ^ 8 /\
  addr_hi a * 2 ^ 8 + addr_lo a = a.
Proof.
  intros Ha. unfold addr_hi, addr_lo.
  change 0xff with (Z.ones 8).
  rewrite !Z.land_ones, Z.shiftr_div_pow2 by lia.
  pose proof (Z.mod_pos_bound (a / 2 ^ 8) (2 ^ 8) ltac:(lia)).
  pose proof (Z.mod_pos_bound a (2 ^ 8) ltac:(lia)).
  repeat split; try lia.
  rewrite (Z.mod_small (a / 2 ^ 8)).
  - pose proof (Z.div_mod a (2 ^ 8) ltac:(lia)). lia.
  - split; [apply Z.div_pos; lia|].
    apply Z.div_lt_upper_bound; lia.
Qed.

(** X11. The two address bytes sent ahead of every transfer are the high and
    the low byte of the 16-bit address, and give it back. *)
Theorem address_bytes_round_trip (a : Z) :
  0 <= a < 2 ^ 16 ->
  0 <= addr_hi a < 2 ^ 8 /\ 0 <= addr_lo a < 2 ^ 8 /\
  addr_hi a * 2 ^ 8 + addr_lo a = a.
Proof. apply addr_bytes_spec. Qed.

Lemma address_bytes_round_trip_witness :
  0 <= addr_hi 0xF8A0 < 2 ^ 8 /\ 0 <= addr_lo 0xF8A0 < 2 ^ 8 /\
  addr_hi 0xF8A0 * 2 ^ 8 + addr_lo 0xF8A0 = 0xF8A0.
Proof. apply (address_bytes_round_trip 0xF8A0). lia. Defined.

Lemma adm_eeprom_erase_ok (w : world) (fd a : Z)
    (a1 a2 : answer) (rest : list answer) :
  fd_lookup (fdtab w) fd = Some I2CAdapter ->
  answers w = a1 :: a2 :: rest ->
  a_ret a1 = 2 -> a_ret a2 = 1 ->
  adm_eeprom_erase w fd a = (after w (a_errno a2) rest (erase_events a), 0).
Proof.
  intros Hfd Hans H1 H2. unfold adm_eeprom_erase.
  rewrite (sys_write_answered _ _ _ a1 (a2 :: rest)) by assumption.
  rewrite H1. cbn [Z.eqb Pos.eqb negb].
  rewrite (sys_write_answered _ _ _ a2 rest) by (simpl; auto).
  rewrite H2. cbn [Z.eqb Pos.eqb negb].
  rewrite after_after. reflexivity.
Qed.

(** X15. When the address write of an erase is not acknowledged in full,
    [adm_eeprom_erase] stops there: the erase trigger is not sent, and the
    value returned is [errno] negated, as it stands after the diagnostic
    printed on [stderr]: what that print made of it, or else what the write
    left. It is 0 when that is 0. *)
Theorem erase_refused_address (w : world) (fd a : Z)
    (a1 : answer) (rest : list answer) :
  fd_lookup (fdtab w) fd = Some I2CAdapter ->
  answers w = a1 :: rest -> a_ret a1 <> 2 ->
  exists w',
    adm_eeprom_erase w fd a = (w', - errno w') /\
    trace w' = trace w ++ [EvWrite [addr_hi a; addr_lo a]] /\
    answers w' = rest /\
    errno w' = match diag w with
               | Some e :: _ => e
               | _ => a_errno a1
               end.
Proof.
  intros Hfd Hans H1. unfold adm_eeprom_erase.
  rewrite (sys_write_answered _ _ _ a1 rest) by assumption.
  replace (a_ret a1 =? 2) with false by lia. cbn [negb].
  eexists. split; [reflexivity|].
  unfold sys_diag, after. cbn [diag].
  destruct (diag w) as [|[e|] d]; simpl; auto.
Qed.

Lemma erase_refused_address_witness :
  exists w',
    adm_eeprom_erase (with_diag [Some EBADF] (opened [mk_answer 1 0 []]))
                     3 0xF800
    = (w', - errno w') /\
    trace w' = [EvWrite [addr_hi 0xF800; addr_lo 0xF800]] /\
    answers w' = [] /\ errno w' = EBADF.
Proof.
  apply (erase_refused_address
           (with_diag [Some EBADF] (opened [mk_answer 1 0 []])) 3 0xF800
           (mk_answer 1 0 []) []).
  - reflexivity.
  - reflexivity.
  - simpl. lia.
Defined.

Lemma adm_eeprom_read_ok (w : world) (fd a : Z) (rbuf page : list Z)
    (a1 a2 : answer) (rest : list answer) :
  fd_lookup (fdtab w) fd = Some I2CAdapter ->
  answers w = a1 :: a2 :: rest ->
  a_ret a1 = 2 -> a_ret a2 = 2 ->
  a_data a2 = ADM_PAGE_SIZE :: page -> length page = 32%nat ->
  adm_eeprom_read w fd a rbuf
  = (after w (a_errno a2) rest (read_events a), 0, page).
Proof.
  intros Hfd Hans H1 H2 Hdata Hlen. unfold adm_eeprom_read.
  cbn [take app replicate Z.to_nat].
  rewrite (sys_write_answered _ _ _ a1 (a2 :: rest)) by assumption.
  rewrite H1. cbn [Z.eqb Pos.eqb negb].
  rewrite (sys_ioctl_rdwr_answered _ _ _ _ _ _ a2 rest) by (simpl; auto).
  rewrite H2. cbn [Z.eqb Pos.eqb negb].
  rewrite Hdata.
  assert (Htake : take (Z.to_nat (ADM_PAGE_SIZE + 1)) (ADM_PAGE_SIZE :: page)
                  = ADM_PAGE_SIZE :: page).
  { apply firstn_all2. simpl. rewrite Hlen.
    change (Z.to_nat (ADM_PAGE_SIZE + 1)) with 33%nat. lia. }
  rewrite Htake, overlay_full by (simpl; rewrite Hlen; reflexivity).
  cbn [nth]. rewrite Z.eqb_refl. cbn [negb drop].
  rewrite after_after.
  f_equal. apply firstn_all2. rewrite Hlen. reflexivity.
Qed.

(** X12. Reading a page on the adapter: when the address write and the
    combined transfer are acknowledged and the 33 bytes delivered start with
    the page size, [adm_eeprom_read] returns 0 and the 32 bytes that
    follow. *)
Theorem read_returns_page (w : world) (fd a : Z) (rbuf page : list Z)
    (a1 a2 : answer) (rest : list answer) :
  fd_lookup (fdtab w) fd = Some I2CAdapter ->
  answers w = a1 :: a2 :: rest ->
  a_ret a1 = 2 -> a_ret a2 = 2 ->
  a_data a2 = ADM_PAGE_SIZE :: page -> length page = 32%nat ->
  adm_eeprom_read w fd a rbuf
  = (after w (a_errno a2) rest (read_events a), 0, page).
Proof. apply adm_eeprom_read_ok. Qed.

Lemma read_returns_page_witness :
  adm_eeprom_read (opened [ok 2; page good]) 3 0xF800 []
  = (after (opened [ok 2; page good]) 0 [] (read_events 0xF800), 0, good).
Proof.
  apply (read_returns_page (opened [ok 2; page good]) 3 0xF800 [] good
           (ok 2) (page good) []); reflexivity.
Defined.

(** X13. When the first byte delivered is not the page size,
    [adm_eeprom_read] returns -1 and leaves [rbuf] as it was. *)
Theorem read_rejects_wrong_size_byte (w : world) (fd a b : Z)
    (rbuf more : list Z) (a1 a2 : answer) (rest : list answer) :
  fd_lookup (fdtab w) fd = Some I2CAdapter ->
  answers w = a1 :: a2 :: rest ->
  a_ret a1 = 2 -> a_ret a2 = 2 ->
  a_data a2 = b :: more -> b <> ADM_PAGE_SIZE ->
  adm_eeprom_read w fd a rbuf
  = (after w (a_errno a2) rest (read_events a), -1, rbuf).
Proof.
  intros Hfd Hans H1 H2 Hdata Hb. unfold adm_eeprom_read.
  cbn [take app replicate Z.to_nat].
  rewrite (sys_write_answered _ _ _ a1 (a2 :: rest)) by assumption.
  rewrite H1. cbn [Z.eqb Pos.eqb negb].
  rewrite (sys_ioctl_rdwr_answered _ _ _ _ _ _ a2 rest) by (simpl; auto).
  rewrite H2. cbn [Z.eqb Pos.eqb negb].
  rewrite Hdata.
  change (Z.to_nat (ADM_PAGE_SIZE + 1)) with 33%nat. cbn [take].
  rewrite overlay_head by (simpl; lia).
  replace (b =? ADM_PAGE_SIZE) with false by lia. cbn [negb].
  rewrite after_after. reflexivity.
Qed.

Lemma read_rejects_wrong_size_byte_witness :
  adm_eeprom_read (opened [ok 2; mk_answer 2 0 (0x21 :: good)]) 3 0xF800 [7]
  = (after (opened [ok 2; mk_answer 2 0 (0x21 :: good)]) 0 []
       (read_events 0xF800), -1, [7]).
Proof.
  apply (read_rejects_wrong_size_byte
           (opened [ok 2; mk_answer 2 0 (0x21 :: good)]) 3 0xF800 0x21 [7]
           good (ok 2) (mk_answer 2 0 (0x21 :: good)) []);
    try reflexivity.
  discriminate.
Defined.

Lemma adm_eeprom_write_ok (w : world) (fd a : Z) (wbuf : list Z)
    (a1 a2 : answer) (rest : list answer) :
  fd_lookup (fdtab w) fd = Some I2CAdapter ->
  answers w = a1 :: a2 :: rest ->
  a_ret a1 = 2 -> 0 <= a_ret a2 ->
  adm_eeprom_write w fd a wbuf
  = (after w (a_errno a2) rest (write_events a wbuf), 0).
Proof.
  intros Hfd Hans H1 H2. unfold adm_eeprom_write.
  cbn [take app replicate Z.to_nat].
  rewrite (sys_write_answered _ _ _ a1 (a2 :: rest)) by assumption.
  rewrite H1. cbn [Z.eqb Pos.eqb negb].
  rewrite (sys_write_answered _ _ _ a2 rest) by (simpl; auto).
  replace (a_ret a2 <? 0) with false by lia.
  rewrite after_after. reflexivity.
Qed.

(** X14. Writing a page on the adapter: after the address bytes,
    [adm_eeprom_write] sends [0xFC], the page size and the 32 bytes in one
    write, and returns 0 as soon as that write does not return a negative
    value, a short count included. *)
Theorem write_accepts_any_count (w : world) (fd a : Z) (wbuf : list Z)
    (a1 a2 : answer) (rest : list answer) :
  fd_lookup (fdtab w) fd = Some I2CAdapter ->
  answers w = a1 :: a2 :: rest ->
  a_ret a1 = 2 -> 0 <= a_ret a2 ->
  adm_eeprom_write w fd a wbuf
  = (after w (a_errno a2) rest (write_events a wbuf), 0).
Proof. apply adm_eeprom_write_ok. Qed.

Lemma write_accepts_any_count_witness :
  adm_eeprom_write (opened [ok 2; ok 1]) 3 0xF800 good
  = (after (opened [ok 2; ok 1]) 0 [] (write_events 0xF800 good), 0).
Proof.
  apply (write_accepts_any_count (opened [ok 2; ok 1]) 3 0xF800 good
           (ok 2) (ok 1) []); try reflexivity.
  simpl. lia.
Defined.

Lemma sys_sleep_after w e r evs n :
  sys_sleep (after w e r evs) n = after w e r (evs ++ [EvSleep n]).
Proof. unfold sys_sleep, log, after. simpl. rewrite <- app_assoc. reflexivity. Qed.

Lemma after_nil w : after w (errno w) (answers w) [] = w.
Proof. unfold after. rewrite app_nil_r. destruct w; reflexivity. Qed.

Lemma page_bytes_length c nxt :
  (16 <= length (data c))%nat -> (16 <= length (data nxt))%nat ->
  length (page_bytes c nxt) = 32%nat.
Proof.
  intros Hc Hn. unfold page_bytes.
  rewrite length_app, !length_take. lia.
Qed.

(** X16. A page that differs from what is to be programmed, on an adapter
    that acknowledges every transfer and then delivers the new bytes: the
    transfers are the read, the erase, one second of sleep, the write, one
    second of sleep and the read again, in this order, and [program_chunk]
    returns 0. *)
Theorem program_chunk_protocol (w : world) (fd : Z) (c nxt : ihex_chunk)
    (old : list Z) (a1 a2 a3 a4 a5 a6 a7 a8 : answer) (rest : list answer) :
  fd_lookup (fdtab w) fd = Some I2CAdapter ->
  answers w = a1 :: a2 :: a3 :: a4 :: a5 :: a6 :: a7 :: a8 :: rest ->
  (16 <= length (data c))%nat -> (16 <= length (data nxt))%nat ->
  a_ret a1 = 2 -> a_ret a2 = 2 ->
  a_data a2 = ADM_PAGE_SIZE :: old -> length old = 32%nat ->
  old <> page_bytes c nxt ->
  a_ret a3 = 2 -> a_ret a4 = 1 ->
  a_ret a5 = 2 -> 0 <= a_ret a6 ->
  a_ret a7 = 2 -> a_ret a8 = 2 ->
  a_data a8 = ADM_PAGE_SIZE :: page_bytes c nxt ->
  program_chunk w fd c (Some nxt)
  = Some (after w (a_errno a8) rest
            (read_events (addr c) ++ erase_events (addr c) ++ [EvSleep 1] ++
             write_events (addr c) (page_bytes c nxt) ++ [EvSleep 1] ++
             read_events (addr c)), 0).
Proof.
  intros Hfd Hans Hc Hn H1 H2 Hd2 Hold Hdiff H3 H4 H5 H6 H7 H8 Hd8.
  pose proof (page_bytes_length c nxt Hc Hn) as Hlen.
  unfold program_chunk.
  rewrite (adm_eeprom_read_ok w fd (addr c) (uninit w) old a1 a2
             (a3 :: a4 :: a5 :: a6 :: a7 :: a8 :: rest)) by assumption.
  cbn [Z.eqb negb].
  destruct (decide _) as [_|Hno]; [|exfalso; apply Hno; auto].
  fold (page_bytes c nxt).
  assert (Hne : page_eqb (page_bytes c nxt) old = false).
  { unfold page_eqb. apply bool_decide_eq_false_2.
    rewrite !firstn_all2 by (change (Z.to_nat ADM_PAGE_SIZE) with 32%nat; lia).
    congruence. }
  rewrite Hne.
  rewrite (adm_eeprom_erase_ok _ fd (addr c) a3 a4
             (a5 :: a6 :: a7 :: a8 :: rest)) by (simpl; auto).
  cbn [Z.eqb negb]. rewrite after_after, sys_sleep_after.
  rewrite (adm_eeprom_write_ok _ fd (addr c) (page_bytes c nxt) a5 a6
             (a7 :: a8 :: rest)) by (simpl; auto).
  cbn [Z.eqb negb]. rewrite after_after, sys_sleep_after.
  rewrite (adm_eeprom_read_ok _ fd (addr c) old (page_bytes c nxt) a7 a8 rest)
    by (simpl; auto).
  cbn [Z.eqb].
  assert (Heq : page_eqb (page_bytes c nxt) (page_bytes c nxt) = true)
    by (apply bool_decide_eq_true_2; reflexivity).
  rewrite Heq. cbn [negb Z.eqb]. rewrite after_after.
  rewrite <- !app_assoc. reflexivity.
Qed.

Lemma program_chunk_protocol_witness :
  program_chunk (opened (attempt blank good)) 3 low (Some high)
  = Some (after (opened (attempt blank good)) 0 []
            (read_events 0xF800 ++ erase_events 0xF800 ++ [EvSleep 1] ++
             write_events 0xF800 good ++ [EvSleep 1] ++ read_events 0xF800),
          0).
Proof.
  apply (program_chunk_protocol (opened (attempt blank good)) 3 low high blank
           (ok 2) (page blank) (ok 2) (ok 1) (ok 2) (ok 34) (ok 2) (page good)
           []); try reflexivity; try (simpl; lia).
  discriminate.
Defined.

(** X17. [program_chunk] returns 0 in exactly two ways. Either its first
    read of the page succeeds and returns the bytes to be programmed, and
    nothing else is done; or that read succeeds with other bytes, the erase
    that follows returns 0, the write after one second returns 0, and the
    read after one more second succeeds and returns the bytes to be
    programmed. Each step starts in the world the one before left, and the
    successor record is there. *)
Theorem success_means_verified (w w' : world) (fd : Z) (c : ihex_chunk)
    (next : option ihex_chunk) :
  program_chunk w fd c next = Some (w', 0) <->
  exists nxt w1 rb1,
    next = Some nxt /\
    (16 <= length (data c))%nat /\ (16 <= length (data nxt))%nat /\
    adm_eeprom_read w fd (addr c) (uninit w) = (w1, 0, rb1) /\
    ((page_eqb (page_bytes c nxt) rb1 = true /\ w' = w1) \/
     (page_eqb (page_bytes c nxt) rb1 = false /\
      exists w2 w3 rb4,
        adm_eeprom_erase w1 fd (addr c) = (w2, 0) /\
        adm_eeprom_write (sys_sleep w2 1) fd (addr c) (page_bytes c nxt)
        = (w3, 0) /\
        adm_eeprom_read (sys_sleep w3 1) fd (addr c) rb1 = (w', 0, rb4) /\
        page_eqb rb4 (page_bytes c nxt) = true)).
Proof.
  unfold program_chunk. split.
  - destruct (adm_eeprom_read w fd (addr c) (uninit w))
      as [[w1 r1] rb1] eqn:H1.
    destruct (r1 =? 0) eqn:Hr1; cbn [negb]; [|intros [= _ Hbad]; lia].
    apply Z.eqb_eq in Hr1. subst r1.
    destruct next as [nxt|]; [|discriminate].
    destruct (decide _) as [(Hc & Hn)|_]; [|discriminate].
    fold (page_bytes c nxt).
    destruct (page_eqb (page_bytes c nxt) rb1) eqn:Heq.
    { intros [= <-]. exists nxt, w1, rb1. auto 10. }
    destruct (adm_eeprom_erase w1 fd (addr c)) as [w2 r2] eqn:H2.
    destruct (r2 =? 0) eqn:Hr2; cbn [negb]; [|intros [= _ Hbad]; lia].
    apply Z.eqb_eq in Hr2. subst r2.
    destruct (adm_eeprom_write _ fd (addr c) _) as [w3 r3] eqn:H3.
    destruct (r3 =? 0) eqn:Hr3; cbn [negb]; [|intros [= _ Hbad]; lia].
    apply Z.eqb_eq in Hr3. subst r3.
    destruct (adm_eeprom_read (sys_sleep w3 1) fd (addr c) rb1)
      as [[w4 r4] rb4] eqn:H4.
    destruct (r4 =? 0) eqn:Hr4.
    + apply Z.eqb_eq in Hr4. subst r4.
      destruct (page_eqb rb4 (page_bytes c nxt)) eqn:Heq4; cbn [negb Z.eqb].
      * intros [= <-]. exists nxt, w1, rb1.
        repeat split; auto. right. split; [exact Heq|].
        exists w2, w3, rb4. auto.
      * intros [= _ Hbad]; lia.
    + rewrite Hr4. intros [= _ Hbad]; lia.
  - intros (nxt & w1 & rb1 & -> & Hc & Hn & H1 & Hcase).
    rewrite H1. cbn [Z.eqb negb].
    destruct (decide _) as [_|Hno]; [|exfalso; apply Hno; auto].
    fold (page_bytes c nxt).
    destruct Hcase as [(Heq & ->)|(Heq & w2 & w3 & rb4 & H2 & H3 & H4 & Heq4)];
      rewrite Heq; [reflexivity|].
    rewrite H2. cbn [Z.eqb negb]. rewrite H3. cbn [Z.eqb negb].
    rewrite H4. cbn [Z.eqb]. rewrite Heq4. reflexivity.
Qed.

(** X22. The [do ... while] loop of a page, whatever bound is put on its
    iterations from 3 up: [program_chunk] is called; if it returned non-zero
    it is called again in the world it left; if that returned non-zero it is
    called a third time; the loop leaves with the world and result of the
    last call and with [retry] the number of calls made. It is the loop's
    own test that ends it: at most three calls, a non-zero result only
    after three, and a result whenever the calls made have one. *)
Theorem retry_loop_is_three_attempts (fuel : nat) (w : world) (fd : Z)
    (c : ihex_chunk) (next : option ihex_chunk) :
  (3 <= fuel)%nat ->
  do_retry fuel w fd 0 c next =
  match program_chunk w fd c next with
  | None => None
  | Some (w1, r1) =>
      if r1 =? 0 then Some (w1, r1, 1)
      else
        match program_chunk w1 fd c next with
        | None => None
        | Some (w2, r2) =>
            if r2 =? 0 then Some (w2, r2, 2)
            else
              match program_chunk w2 fd c next with
              | None => None
              | Some (w3, r3) => Some (w3, r3, 3)
              end
        end
  end.
Proof.
  intros Hfuel.
  destruct fuel as [|[|[|fuel]]]; try lia. clear Hfuel.
  cbn [do_retry]. change (to_uint (0 + 1)) with 1.
  destruct (program_chunk w fd c next) as [[w1 r1]|]; [|reflexivity].
  destruct (r1 =? 0); [reflexivity|].
  cbn [negb andb]. change (1 <? 3) with true. cbv iota.
  change (to_uint (1 + 1)) with 2.
  destruct (program_chunk w1 fd c next) as [[w2 r2]|]; [|reflexivity].
  destruct (r2 =? 0); [reflexivity|].
  cbn [negb andb]. change (2 <? 3) with true. cbv iota.
  change (to_uint (2 + 1)) with 3.
  destruct (program_chunk w2 fd c next) as [[w3 r3]|]; [|reflexivity].
  change (3 <? 3) with false. rewrite andb_false_r. reflexivity.
Qed.

Lemma retry_loop_is_three_attempts_witness :
  do_retry 10 retry_w0 3 0 low (Some high) = Some (retry_w3, 0, 3).
Proof.
  rewrite (retry_loop_is_three_attempts 10 retry_w0 3 low (Some high)).
  - vm_compute. reflexivity.
  - lia.
Defined.

(** X18. A list that passes validation holds whole pages only, and at most
    64 of them: its length is even and at most 128, the addresses running
    from [0xF800] to at most [0xFFF0]. *)
Theorem validated_list_shape (l : ihex_file) :
  Forall chunk_wf l -> validate l 0xF800 = true ->
  Nat.Even (length l) /\ (length l <= 128)%nat /\
  Forall (fun c => 0xF800 <= addr c <= 0xFFF0) l.
Proof.
  intros Hwf Hv.
  apply validate_spec in Hv as (Hidx & Hlast); [|lia|assumption].
  assert (Hrange : forall (i : nat) c, l !! i = Some c -> (i < 128)%nat).
  { intros i c Hi. destruct (Hidx i c Hi) as (_ & Ha).
    rewrite Forall_forall in Hwf.
    destruct (Hwf c) as ((_ & Hhi) & _);
      [eapply list_elem_of_lookup_2; exact Hi|]. lia. }
  assert (Hlen : (length l <= 128)%nat).
  { destruct (Nat.le_gt_cases (length l) 128) as [H|H]; [assumption|].
    destruct (lookup_lt_is_Some_2 l 128 H) as (c & Hc).
    apply Hrange in Hc. lia. }
  split; [|split; [assumption|]].
  - destruct l as [|c0 l0] eqn:El; [exists 0%nat; reflexivity|].
    rewrite <- El in *.
    assert (Hn : (0 < length l)%nat) by (rewrite El; simpl; lia).
    destruct (lookup_lt_is_Some_2 l (pred (length l)) ltac:(lia)) as (c & Hc).
    pose proof Hc as Hc'. rewrite <- last_lookup in Hc'.
    apply Hlast in Hc'. destruct (Hidx _ _ Hc) as (_ & Ha).
    destruct (Nat.Even_or_Odd (length l)) as [He|[k Hk]]; [assumption|].
    exfalso. apply Hc'. rewrite Ha, Hk.
    replace (Z.of_nat (pred (2 * k + 1))) with (2 * Z.of_nat k) by lia.
    replace (63488 + 16 * (2 * Z.of_nat k)) with ((1984 + Z.of_nat k) * 32)
      by lia.
    apply Z.mod_mul. lia.
  - apply Forall_forall. intros c Hc.
    apply list_elem_of_lookup_1 in Hc as (i & Hi).
    destruct (Hidx i c Hi) as (_ & Ha). apply Hrange in Hi. lia.
Qed.

Lemma validated_list_shape_witness :
  Nat.Even (length store) /\ (length store <= 128)%nat /\
  Forall (fun c => 0xF800 <= addr c <= 0xFFF0) store.
Proof.
  apply (validated_list_shape store).
  - repeat constructor; simpl; lia.
  - reflexivity.
Defined.

Lemma addresses_read a e : read_event a e -> addresses a e.
Proof. intros [->| ->] h l [=]; auto. Qed.

Lemma adm_eeprom_erase_addresses w fd a w' ret :
  adm_eeprom_erase w fd a = (w', ret) -> extends (addresses a) w w'.
Proof.
  unfold adm_eeprom_erase.
  destruct (sys_write w fd _) as [w1 r1] eqn:H1.
  apply sys_write_extends, (extends_weaken _ (addresses a)) in H1;
    [|intros e -> h l [=]; auto].
  destruct (negb (r1 =? 2));
    [intros [= <- <-]; apply extends_diag; exact H1|].
  destruct (sys_write w1 fd _) as [w2 r2] eqn:H2.
  apply sys_write_extends, (extends_weaken _ (addresses a)) in H2;
    [|intros e -> h l [=]].
  destruct (negb (r2 =? 1)); intros [= <- <-];
    try apply extends_diag; eapply extends_trans; eauto.
Qed.

Lemma adm_eeprom_write_addresses w fd a wbuf w' ret :
  (0 < length wbuf)%nat ->
  adm_eeprom_write w fd a wbuf = (w', ret) -> extends (addresses a) w w'.
Proof.
  intros Hlen. unfold adm_eeprom_write.
  destruct (sys_write w fd _) as [w1 r1] eqn:H1.
  apply sys_write_extends, (extends_weaken _ (addresses a)) in H1;
    [|intros e -> h l [=]; auto].
  destruct (negb (r1 =? 2));
    [intros [= <- <-]; apply extends_diag; exact H1|].
  destruct (sys_write w1 fd _) as [w2 r2] eqn:H2.
  apply sys_write_extends, (extends_weaken _ (addresses a)) in H2.
  - destruct (r2 <? 0); intros [= <- <-];
      try apply extends_diag; eapply extends_trans; eauto.
  - intros e -> h l. destruct wbuf as [|b wbuf]; [simpl in Hlen; lia|].
    change (Z.to_nat ADM_PAGE_SIZE) with 32%nat. simpl. discriminate.
Qed.

Lemma program_chunk_addresses w fd c next w' ret :
  program_chunk w fd c next = Some (w', ret) ->
  extends (addresses (addr c)) w w'.
Proof.
  unfold program_chunk.
  destruct (adm_eeprom_read w fd (addr c) (uninit w)) as [[w1 r1] rb1] eqn:H1.
  apply adm_eeprom_read_extends,
    (extends_weaken _ (addresses (addr c))) in H1; [|apply addresses_read].
  destruct (negb (r1 =? 0)); [intros [= <- <-]; auto|].
  destruct next as [nxt|]; [|discriminate].
  destruct (decide _) as [(Hc & Hn)|]; [|discriminate].
  destruct (page_eqb _ rb1); [intros [= <- <-]; auto|].
  destruct (adm_eeprom_erase w1 fd (addr c)) as [w2 r2] eqn:H2.
  apply adm_eeprom_erase_addresses in H2.
  assert (E2 : extends (addresses (addr c)) w w2) by eauto using extends_trans.
  destruct (negb (r2 =? 0)); [intros [= <- <-]; auto|].
  assert (Es : forall v, extends (addresses (addr c)) v (sys_sleep v 1)).
  { intros v. apply extends_log; [apply extends_refl|]. intros h l [=]. }
  destruct (adm_eeprom_write (sys_sleep w2 1) fd (addr c) _) as [w3 r3] eqn:H3.
  apply adm_eeprom_write_addresses in H3;
    [|rewrite length_app, !length_take; lia].
  assert (E3 : extends (addresses (addr c)) w w3)
    by eauto using extends_trans.
  destruct (negb (r3 =? 0)); [intros [= <- <-]; auto|].
  destruct (adm_eeprom_read (sys_sleep w3 1) fd (addr c) rb1)
    as [[w4 r4] rb4] eqn:H4.
  apply adm_eeprom_read_extends,
    (extends_weaken _ (addresses (addr c))) in H4; [|apply addresses_read].
  assert (E4 : extends (addresses (addr c)) w w4)
    by eauto using extends_trans.
  destruct (_ =? 0); intros [= <- <-]; auto.
Qed.

Lemma do_retry_addresses fuel : forall w fd retry c next w' ret n,
  do_retry fuel w fd retry c next = Some (w', ret, n) ->
  extends (addresses (addr c)) w w'.
Proof.
  induction fuel as [|fuel IH]; intros w fd retry c next w' ret n; simpl;
    [discriminate|].
  destruct (program_chunk w fd c next) as [[w1 r1]|] eqn:Hp; [|discriminate].
  apply program_chunk_addresses in Hp.
  destruct (_ && _).
  - intros H. apply IH in H. eauto using extends_trans.
  - intros [= <- <- <-]. assumption.
Qed.

Lemma addresses_unreserved_head c l e :
  reserved (addr c) = false -> addresses (addr c) e ->
  addresses_unreserved (c :: l) e.
Proof.
  intros Hr Ha h lo He. exists c. destruct (Ha h lo He).
  repeat split; auto. apply list_elem_of_here.
Qed.

Lemma addresses_unreserved_tail c c' l e :
  addresses_unreserved l e -> addresses_unreserved (c :: c' :: l) e.
Proof.
  intros Ha h lo He. destruct (Ha h lo He) as (x & Hx & H).
  exists x. split; [|exact H]. do 2 apply list_elem_of_further. exact Hx.
Qed.

Lemma page_loop_addresses : forall l w fd ret w' ret',
  page_loop w fd ret l = Some (w', ret') ->
  extends (addresses_unreserved l) w w'.
Proof.
  induction l as [| |c c' l IH] using pair_induction;
    intros w fd ret w' ret'; cbn [page_loop hd_error].
  - intros [= <- <-]. apply extends_refl.
  - destruct (reserved (addr x)) eqn:Hr; [discriminate|].
    destruct (do_retry 3 w fd 0 x None) as [[[w2 r2] n]|] eqn:Hd;
      [|discriminate].
    apply do_retry_addresses in Hd.
    destruct (negb (r2 =? 0)); [|discriminate].
    intros [= <- <-]. eapply extends_weaken; [|exact Hd].
    intros e. apply addresses_unreserved_head. assumption.
  - destruct (reserved (addr c)) eqn:Hr.
    + intros H. apply IH in H. eapply extends_weaken; [|exact H].
      intros e. apply addresses_unreserved_tail.
    + destruct (do_retry 3 w fd 0 c (Some c')) as [[[w2 r2] n]|] eqn:Hd;
        [|discriminate].
      apply do_retry_addresses in Hd.
      assert (E : extends (addresses_unreserved (c :: c' :: l)) w w2).
      { eapply extends_weaken; [|exact Hd].
        intros e. apply addresses_unreserved_head. assumption. }
      destruct (negb (r2 =? 0)).
      * intros [= <- <-]. exact E.
      * intros H. apply IH in H. eapply extends_trans; [exact E|].
        eapply extends_weaken; [|exact H].
        intros e. apply addresses_unreserved_tail.
Qed.

(** X19. The page loop never sends the address of a reserved page: none of
    the transfers it adds is the two-byte write that names an address for
    which the loop's range test holds. *)
Theorem reserved_pages_never_addressed (w w' : world) (fd ret ret' a : Z)
    (l : ihex_file) :
  Forall chunk_wf l -> 0 <= a < 2 ^ 16 -> reserved a = true ->
  page_loop w fd ret l = Some (w', ret') ->
  exists evs, trace w' = trace w ++ evs /\
              ~ In (EvWrite [addr_hi a; addr_lo a]) evs.
Proof.
  intros Hwf Ha Hres Hloop.
  apply page_loop_addresses in Hloop as (_ & _ & evs & Ht & Hev).
  exists evs. split; [assumption|]. intros Hin.
  rewrite Forall_forall in Hev.
  destruct (Hev _ (proj2 (list_elem_of_In _ _) Hin) _ _ eq_refl)
    as (c & Hc & Hunres & Hhi & Hlo).
  rewrite Forall_forall in Hwf.
  destruct (Hwf c Hc) as (Hrange & _).
  pose proof (addr_bytes_spec a Ha) as (_ & _ & Ea).
  pose proof (addr_bytes_spec (addr c) Hrange) as (_ & _ & Ec).
  assert (a = addr c) by lia. congruence.
Qed.

Lemma reserved_pages_never_addressed_witness :
  exists evs,
    trace (world_after (page_loop (opened [ok 2; page good]) 3 0
                          ([rlow; rhigh] ++ store)) (opened []))
    = trace (opened [ok 2; page good]) ++ evs /\
    ~ In (EvWrite [addr_hi 0xF8A0; addr_lo 0xF8A0]) evs.
Proof.
  apply (reserved_pages_never_addressed (opened [ok 2; page good]) _ 3 0 0
           0xF8A0 ([rlow; rhigh] ++ store)).
  - repeat constructor; simpl; lia.
  - lia.
  - reflexivity.
  - vm_compute. reflexivity.
Defined.

Lemma sys_open_trace w o w' fd : sys_open w o = (w', fd) -> trace w' = trace w.
Proof.
  unfold sys_open. destruct (next_answer w) as [a wa] eqn:Ha.
  apply next_answer_same in Ha as (_ & _ & Ht).
  destruct (a_ret a <? 0); intros [= <- <-]; exact Ht.
Qed.

Lemma sys_ioctl_slave_extends w fd a w' ret :
  sys_ioctl_slave w fd a = (w', ret) -> extends (fun e => e = EvSlave a) w w'.
Proof.
  unfold sys_ioctl_slave.
  destruct (fd_lookup (fdtab w) fd) as [[| |]|];
    try destruct (next_answer w) as [r wr] eqn:Hr; intros [= <- <-];
    repeat first [apply extends_log | apply extends_set_errno];
    eauto using extends_next_answer, extends_refl.
Qed.

(** X20. When [main] leaves through [exit(1)] after the parse, no write has
    reached the adapter: the list was refused before the adapter was opened,
    or the adapter could not be opened or addressed, and the sequencing
    engine has not been halted. *)
Theorem exit_1_leaves_device_alone (w w' : world) (fd : Z) (l : ihex_file) :
  main_programming w fd l = Exit 1 w' ->
  exists evs, trace w' = trace w ++ evs /\
              Forall (fun e => e = EvSlave 0x34) evs.
Proof.
  unfold main_programming.
  destruct (validate l 0xF800); cbn [negb].
  2:{ intros [= <-]. exists []. rewrite app_nil_r. auto. }
  unfold device_setup.
  destruct (sys_open w I2CAdapter) as [w1 i2c_fd] eqn:Hopen.
  apply sys_open_trace in Hopen.
  destruct (i2c_fd <? 0).
  { intros [= <-]. exists []. rewrite app_nil_r. auto. }
  destruct (sys_ioctl_slave w1 i2c_fd 0x34) as [w2 r2] eqn:Hs.
  apply sys_ioctl_slave_extends in Hs as (_ & _ & evs & Ht & Hev).
  destruct (r2 <? 0).
  { intros [= <-]. exists evs. rewrite Ht, Hopen. auto. }
  destruct (sys_write w2 _ _) as [w3 r3].
  destruct (sys_write w3 _ _) as [w4 r4].
  destruct (page_loop w4 i2c_fd r2 l) as [[w5 r5]|]; [|discriminate].
  unfold teardown. destruct (sys_write w5 fd _). discriminate.
Qed.

Lemma exit_1_leaves_device_alone_witness :
  exists evs,
    trace (after (opened []) EIO [] [EvSlave 0x34])
    = trace (fresh [ok 0; failed]) ++ evs /\
    Forall (fun e => e = EvSlave 0x34) evs.
Proof.
  apply (exit_1_leaves_device_alone (fresh [ok 0; failed]) _ 3 store).
  vm_compute. reflexivity.
Defined.

(** X21. When the adapter is opened and addressed, the page loop is entered
    after exactly three transfers, in this order: the slave address [0x34],
    the write [0x93, 0x01] that halts the sequencing engine, the write
    [0x90, 0x05] that enables EEPROM access. The results of the two writes
    are not looked at. *)
Theorem setup_sequence (w w' : world) (i2c_fd ret : Z) :
  device_setup w = (w', Some (i2c_fd, ret)) ->
  trace w' = trace w ++ [EvSlave 0x34; EvWrite [0x93; 0x1]; EvWrite [0x90; 0x5]]
  /\ 0 <= ret /\ fd_lookup (fdtab w') i2c_fd = Some I2CAdapter.
Proof.
  unfold device_setup.
  destruct (sys_open w I2CAdapter) as [w1 f] eqn:Hopen.
  destruct (f <? 0) eqn:Hneg; [discriminate|].
  pose proof (sys_open_trace _ _ _ _ Hopen) as Ht1.
  apply sys_open_ok in Hopen as (-> & Hf1); [|lia].
  assert (Hl1 : fd_lookup (fdtab w1) (Z.of_nat (lowest_free (fdtab w)))
                = Some I2CAdapter).
  { unfold fd_lookup. rewrite of_nat_ltb_0, Nat2Z.id, Hf1, lookup_fd_install.
    reflexivity. }
  unfold sys_ioctl_slave. rewrite Hl1.
  destruct (next_answer w1) as [r wr] eqn:Hr.
  apply next_answer_same in Hr as (Hfr & _ & Htr).
  destruct (a_ret r <? 0) eqn:Hret; [discriminate|].
  set (w2 := log (EvSlave 52) (set_errno (a_errno r) wr)).
  assert (Hl2 : fd_lookup (fdtab w2) (Z.of_nat (lowest_free (fdtab w)))
                = Some I2CAdapter) by (simpl; rewrite Hfr; exact Hl1).
  destruct (sys_write_adapter w2 _ [0x93; 0x1] Hl2) as (w3 & r3 & -> & Hf3 & Ht3).
  rewrite <- Hf3 in Hl2.
  destruct (sys_write_adapter w3 _ [0x90; 0x5] Hl2) as (w4 & r4 & -> & Hf4 & Ht4).
  intros [= <- <- <-]. split; [|split].
  - rewrite Ht4, Ht3. simpl. rewrite Htr, Ht1, <- !app_assoc. reflexivity.
  - lia.
  - rewrite Hf4. exact Hl2.
Qed.

Lemma setup_sequence_witness :
  trace refusing_w3
  = trace (sys_close refusing_w1 3)
    ++ [EvSlave 0x34; EvWrite [0x93; 0x1]; EvWrite [0x90; 0x5]]
  /\ 0 <= 0 /\ fd_lookup (fdtab refusing_w3) 3 = Some I2CAdapter.
Proof.
  apply (setup_sequence (sys_close refusing_w1 3) refusing_w3 3 0).
  vm_compute. reflexivity.
Defined.

(** X23. Programming a device that already holds the data changes nothing:
    when every page that is not reserved reads back as it is to be, the page
    loop goes through the whole list with one read per such page, no erase
    and no write, and leaves with [ret] 0 (or as it was, when there was no
    page to read). *)
Theorem rerun_only_reads (l : ihex_file) (ans rest : list answer) :
  pages_match l ans rest ->
  forall (w : world) (fd ret : Z),
    Forall (fun c => (16 <= length (data c))%nat) l ->
    fd_lookup (fdtab w) fd = Some I2CAdapter -> answers w = ans ->
    exists w' ret' evs,
      page_loop w fd ret l = Some (w', ret') /\
      (ret' = 0 \/ ret' = ret) /\ answers w' = rest /\
      trace w' = trace w ++ evs /\
      Forall (fun e => is_erase_cmd e = false /\ is_write_cmd e = false) evs.
Proof.
  induction 1 as [rest|c c' l ans rest Hres _ IH
                 |c c' l a1 a2 ans rest Hres H1 H2 Hd _ IH];
    intros w fd ret Hlen Hfd Hans.
  - exists w, ret, []. simpl. rewrite app_nil_r. auto.
  - inversion Hlen as [|? ? _ Hlen1]; subst.
    inversion Hlen1 as [|? ? _ Hlen2]; subst.
    cbn [page_loop]. rewrite Hres. apply IH; auto.
  - inversion Hlen as [|? ? Hc Hlen1]; subst.
    inversion Hlen1 as [|? ? Hc' Hlen2]; subst.
    pose proof (page_bytes_length c c' Hc Hc') as H32.
    assert (Hp : program_chunk w fd c (Some c')
                 = Some (after w (a_errno a2) ans (read_events (addr c)), 0)).
    { unfold program_chunk.
      rewrite (adm_eeprom_read_ok w fd (addr c) (uninit w) (page_bytes c c')
                 a1 a2 ans) by assumption.
      cbn [Z.eqb negb].
      destruct (decide _) as [_|Hno]; [|exfalso; apply Hno; auto].
      fold (page_bytes c c').
      assert (Heq : page_eqb (page_bytes c c') (page_bytes c c') = true)
        by (apply bool_decide_eq_true_2; reflexivity).
      rewrite Heq. reflexivity. }
    cbn [page_loop hd_error do_retry]. rewrite Hres, Hp. cbn [Z.eqb negb andb].
    destruct (IH (after w (a_errno a2) ans (read_events (addr c))) fd 0)
      as (w' & ret' & evs & Hloop & Hret & Hrest & Ht & Hev); auto.
    exists w', ret', (read_events (addr c) ++ evs).
    split; [exact Hloop|]. split; [lia|]. split; [exact Hrest|].
    split; [rewrite Ht; simpl; rewrite <- app_assoc; reflexivity|].
    apply Forall_app. split; [|exact Hev].
    repeat constructor.
Qed.

Lemma rerun_only_reads_witness :
  exists w' ret' evs,
    page_loop (opened [ok 2; page good]) 3 0 ([rlow; rhigh] ++ store)
    = Some (w', ret') /\
    (ret' = 0 \/ ret' = 0) /\ answers w' = [] /\
    trace w' = trace (opened [ok 2; page good]) ++ evs /\
    Forall (fun e => is_erase_cmd e = false /\ is_write_cmd e = false) evs.
Proof.
  apply (rerun_only_reads ([rlow; rhigh] ++ store) [ok 2; page good] []).
  - apply pages_match_reserved; [reflexivity|].
    apply pages_match_read; try reflexivity.
    apply pages_match_nil.
  - repeat constructor; simpl; lia.
  - reflexivity.
  - reflexivity.
Defined.

End ProtocolExtras.

(** * Parse errors and what is left in the list *)

Section ParseErrors.
Import Samples.

Lemma get_hex_token_refused fd n :
  hex_prefix n fd = false ->
  exists val fd', get_hex_token fd n = (-1, val, fd').
Proof.
  intros H. pose proof (get_hex_token_loop_ret n 0 fd) as Hret.
  rewrite H in Hret. unfold get_hex_token.
  destruct (get_hex_token_loop n 0 fd) as [[r v] fd']. simpl in Hret.
  subst r. eauto.
Qed.

Lemma header_parsed_in (n a : Z) (f : ihex_file) (fd : string) :
  0 <= n < 2 ^ 8 -> 0 <= a < 2 ^ 16 ->
  reaches (mk_pstate STATE_START_OF_LINE None f
             (String ":"%char (hex_digits 2 n (hex_digits 4 a fd))))
          (mk_pstate STATE_TYPE
             (Some (mk_chunk a n 0 (replicate (Z.to_nat n) 0))) f fd).
Proof.
  intros Hn Ha.
  eapply reaches_step; [reflexivity|reflexivity|].
  eapply reaches_step; [reflexivity| |].
  { unfold step. cbn [st input].
    rewrite get_hex_token_digits by (simpl; lia). reflexivity. }
  eapply reaches_step; [reflexivity| |].
  { unfold step. cbn [st input chunk].
    rewrite get_hex_token_digits by (simpl; lia). reflexivity. }
  cbn [len checksum data addr].
  unfold to_uchar, to_ushort. rewrite !Z.mod_small by lia.
  apply reaches_refl.
Qed.

Lemma data_reached (n a : Z) (f : ihex_file) (fd : string) :
  0 <= n < 2 ^ 8 -> 0 <= a < 2 ^ 16 ->
  reaches (mk_pstate STATE_START_OF_LINE None f
             (String ":"%char
                (hex_digits 2 n (hex_digits 4 a (hex_digits 2 0 fd)))))
          (mk_pstate STATE_DATA
             (Some (mk_chunk a n 0 (replicate (Z.to_nat n) 0))) f fd).
Proof.
  intros Hn Ha.
  eapply reaches_trans; [apply header_parsed_in; assumption|].
  eapply reaches_step; [reflexivity| |apply reaches_refl].
  unfold step. cbn [st input chunk file].
  rewrite get_hex_token_digits by (simpl; lia). reflexivity.
Qed.

Lemma read_data_broken bs : forall (m i : nat) d fd,
  Forall (fun b => 0 <= b < 2 ^ 8) bs -> hex_prefix 2 fd = false ->
  exists d' fd',
    read_data (length bs + S m) i d (encode_data bs fd) = (false, d', fd').
Proof.
  induction bs as [|b bs IH]; intros m i d fd Hb Hfd.
  - destruct (get_hex_token_refused fd 2 Hfd) as (v & fd' & Htok).
    simpl. rewrite Htok. simpl. eauto.
  - inversion Hb as [|? ? Hb0 Hbs]; subst.
    cbn [length Nat.add read_data encode_data fold_right].
    rewrite get_hex_token_digits by (simpl; lia). cbn [Z.ltb Z.compare].
    apply IH; assumption.
Qed.

(** On a broken line the loop ends in [STATE_ERROR] with the list as it
    was when the line began. *)
Lemma broken_line_fails (fd : string) :
  broken_line fd ->
  forall f : ihex_file,
    exists s', reaches (mk_pstate STATE_START_OF_LINE None f fd) s' /\
               st s' = STATE_ERROR /\ file s' = f.
Proof.
  intros Hb f. destruct Hb as
    [fd Hw|fd Hq|n fd Hn Hq|n a fd Hn Ha Hq|n a bs fd Hn Ha Hbs Hlen Hq
    |n a bs fd Hn Ha Hbs Hlen Hq|n a fd Hn Ha].
  - (* first character *)
    destruct fd as [|c rest].
    + eexists. split.
      * eapply reaches_step; [reflexivity|reflexivity|apply reaches_refl].
      * auto.
    + simpl in Hw. apply andb_prop in Hw as (Hs & Hc).
      unfold is_space in Hs. cbv zeta in Hs.
      apply negb_true_iff in Hs. apply negb_true_iff in Hc.
      eexists. split.
      * eapply reaches_step; [reflexivity| |apply reaches_refl].
        unfold step. cbn [st input chunk file get_token].
        rewrite Hs, Hc. reflexivity.
      * auto.
  - (* length *)
    destruct (get_hex_token_refused fd 2 Hq) as (v & fd' & Htok).
    eexists. split.
    + eapply reaches_step; [reflexivity|reflexivity|].
      eapply reaches_step; [reflexivity| |apply reaches_refl].
      unfold step. cbn [st input chunk file]. rewrite Htok. reflexivity.
    + auto.
  - (* address *)
    destruct (get_hex_token_refused fd 4 Hq) as (v & fd' & Htok).
    eexists. split.
    + eapply reaches_step; [reflexivity|reflexivity|].
      eapply reaches_step; [reflexivity| |].
      { unfold step. cbn [st input].
        rewrite get_hex_token_digits by (simpl; lia). reflexivity. }
      eapply reaches_step; [reflexivity| |apply reaches_refl].
      unfold step. cbn [st input chunk file]. rewrite Htok. reflexivity.
    + auto.
  - (* type *)
    destruct (get_hex_token_refused fd 2 Hq) as (v & fd' & Htok).
    eexists. split.
    + eapply reaches_trans; [apply header_parsed_in; assumption|].
      eapply reaches_step; [reflexivity| |apply reaches_refl].
      unfold step. cbn [st input chunk file]. rewrite Htok. reflexivity.
    + auto.
  - (* a data byte *)
    destruct (read_data_broken bs (Z.to_nat n - length bs - 1) 0
                (replicate (Z.to_nat n) 0) fd Hbs Hq) as (d' & fd' & Hrd).
    replace (length bs + S (Z.to_nat n - length bs - 1))%nat
      with (Z.to_nat n) in Hrd by lia.
    eexists. split.
    + eapply reaches_trans; [apply data_reached; assumption|].
      eapply reaches_step; [reflexivity| |apply reaches_refl].
      unfold step. cbn [st input chunk file len data]. rewrite Hrd.
      reflexivity.
    + auto.
  - (* checksum *)
    destruct (get_hex_token_refused fd 2 Hq) as (v & fd' & Htok).
    eexists. split.
    + eapply reaches_trans; [apply data_reached; assumption|].
      eapply reaches_step; [reflexivity| |].
      { unfold step. cbn [st input chunk file len data]. rewrite <- Hlen.
        rewrite read_data_encoded;
          [reflexivity|assumption|rewrite length_replicate; lia]. }
      eapply reaches_step; [reflexivity| |apply reaches_refl].
      unfold step. cbn [st input chunk file]. rewrite Htok. reflexivity.
    + auto.
  - (* end-of-file marker *)
    destruct (end_of_file_always_error
                (mk_pstate STATE_END_OF_FILE
                   (Some (mk_chunk a n 0 (replicate (Z.to_nat n) 0))) f fd)
                eq_refl) as (s' & Hstep & Herr & _).
    exists s'. split; [|split; [assumption|]].
    + eapply reaches_trans; [apply header_parsed_in; assumption|].
      eapply reaches_step; [reflexivity| |].
      { unfold step. cbn [st input chunk file].
        rewrite get_hex_token_digits by (simpl; lia). reflexivity. }
      eapply reaches_step; [reflexivity|exact Hstep|apply reaches_refl].
    + apply (step_error_keeps_file _ _ Hstep Herr).
Qed.

Lemma reaches_error_parse (fd : string) (s' : pstate) :
  reaches (init fd) s' -> st s' = STATE_ERROR ->
  parse_ihex fd = Some (-1, file s').
Proof.
  intros Hreach Herr. unfold parse_ihex.
  destruct (loop_ends_in_error (enough_fuel fd) (init fd)) as (r & Hr & _);
    [intros H; discriminate H|discriminate
    |unfold measure, enough_fuel, init; simpl; lia|].
  rewrite Hr. destruct (reaches_loop _ _ Hreach _ _ Hr) as (g & Hg).
  rewrite loop_stopped in Hg by (unfold running; rewrite Herr; reflexivity).
  injection Hg as <-. unfold finish. rewrite Herr. reflexivity.
Qed.

(** C9 (as stated, the code departs from it). The claim: on a parse error
    no partial record list is returned, the caller receives a failure result
    rather than a usable list of the records parsed before the error. Here
    the second line breaks off in a byte that is not hexadecimal:
    [parse_ihex] returns -1, and the list it leaves in [*file] holds the
    record of the first line. *)
Lemma parse_error_leaves_earlier_records :
  parse_ihex truncated_hex = Some (-1, [low]) /\
  ~ (forall ret f, parse_ihex truncated_hex = Some (ret, f) ->
                   ret <> 0 -> f = []).
Proof.
  assert (H : parse_ihex truncated_hex = Some (-1, [low]))
    by (vm_compute; reflexivity).
  split; [exact H|].
  intros Hnone. specialize (Hnone _ _ H ltac:(lia)). discriminate Hnone.
Qed.

(** C9 (amended). Complete data records followed by a line on which the
    parse fails (a byte that is not hexadecimal, the stream ending early, the
    end-of-file marker): [parse_ihex] returns -1; the list it leaves in
    [*file] is exactly the records of the complete lines, in file order, so
    the record in progress on the failing line was not appended and the
    earlier ones were not discarded; [main] does not use them, it exits
    with status 1 and nothing has reached the adapter. And on any input
    whatever: when the loop ends in [STATE_ERROR] the return code is -1 and
    the iteration that entered [STATE_ERROR] appended nothing to the list
    that is left in [*file]. *)
Theorem parse_error_keeps_earlier_records (l : ihex_file) (fd : string)
    (w : world) :
  Forall record_wf l -> broken_line fd ->
  parse_ihex (encode_store l fd) = Some (-1, l) /\
  (exists w', main w (encode_store l fd) = Exit 1 w' /\ trace w' = trace w) /\
  (forall (hex : string) (s' : pstate),
      loop (enough_fuel hex) (init hex) = Some s' -> st s' = STATE_ERROR ->
      parse_ihex hex = Some (-1, file s') /\
      forall s, step s = Some s' -> file s = file s').
Proof.
  intros Hwf Hb. split; [|split; [apply main_parse_failure|]].
  - destruct (broken_line_fails fd Hb l) as (s' & Hreach & Herr & Hfile).
    rewrite (reaches_error_parse _ s');
      [rewrite Hfile; reflexivity| |assumption].
    eapply reaches_trans; [apply (store_parsed l [] fd Hwf)|exact Hreach].
  - intros hex s' Hloop Herr. split.
    + unfold parse_ihex, finish. rewrite Hloop, Herr. reflexivity.
    + intros s Hs. symmetry. apply step_error_keeps_file; assumption.
Qed.

Lemma parse_error_keeps_earlier_records_witness :
  parse_ihex
    (encode_store [low]
       (String ":"%char
          (hex_digits 2 16 (hex_digits 4 0xF810 (hex_digits 2 0
             (encode_data [16; 17] "zz"))))))
  = Some (-1, [low]) /\
  (exists w',
      main (fresh [])
        (encode_store [low]
           (String ":"%char
              (hex_digits 2 16 (hex_digits 4 0xF810 (hex_digits 2 0
                 (encode_data [16; 17] "zz"))))))
      = Exit 1 w' /\ trace w' = trace (fresh [])).
Proof.
  destruct (parse_error_keeps_earlier_records [low]
              (String ":"%char
                 (hex_digits 2 16 (hex_digits 4 0xF810 (hex_digits 2 0
                    (encode_data [16; 17] "zz")))))
              (fresh [])) as (Hp & Hm & _).
  - repeat constructor; simpl; lia.
  - apply (broken_data 16 0xF810 [16; 17] "zz").
    + lia.
    + lia.
    + repeat constructor; lia.
    + simpl. lia.
    + reflexivity.
  - split; [exact Hp|exact Hm].
Defined.

End ParseErrors.

(** * The exit status of the process *)

Section ExitStatus.
Import Samples.


End ExitStatus.
